(** * Turkey earthquake dashboard (app.py)

    A shallow embedding of the data path of [app.py]: the load-and-clean
    pipeline [load_and_preprocess_data] with its nested [extract_region],
    the sidebar filter that builds [df_filtered], and the regional
    statistics [df_region_stats] that feed the treemap.

    Conventions of the embedding:
    - a Python [str] is the list of its Unicode code points;
    - a float64 cell is a primitive binary64 [float]; a missing number is
      [nan], and every ordered comparison with [nan] is [false], as in
      pandas;
    - a cell of an object column is [option str], [None] standing for a
      missing value (NaN / None);
    - a data frame is the list of its rows in index order; boolean-mask
      indexing [df[mask]] is [filter];
    - Python exceptions are the [Raise] branch of [result];
    - two behaviours of the library that its versions or its algorithms do
      not fix are parameters: the range of dates a timestamp column holds
      ([Dates.TimestampRange]) and the order in which an unstable sort
      leaves rows of equal count ([SortValues]). *)

From Stdlib Require Import String Ascii.
From Stdlib Require Import ZArith NArith List Bool Lia.
From Stdlib Require Import Floats Permutation Sorted.
Import ListNotations.

Set Implicit Arguments.

(* ================================================================== *)
(** * Python values                                                     *)
(* ================================================================== *)

Module Py.

(** Exceptions the modelled code can raise. *)
Inductive exn : Set := IndexError.

Inductive result (A : Type) : Type :=
| Ok (a : A)
| Raise (e : exn).
Arguments Ok {A} a.
Arguments Raise {A} e.

Definition bind {A B : Type} (m : result A) (k : A -> result B) : result B :=
  match m with
  | Ok a => k a
  | Raise e => Raise e
  end.

(** [for x in xs: f x], collecting the results; the first exception
    aborts the traversal (this is what [Series.apply] does). *)
Fixpoint mapM {A B : Type} (f : A -> result B) (xs : list A) : result (list B) :=
  match xs with
  | [] => Ok []
  | x :: xs' =>
      bind (f x) (fun y => bind (mapM f xs') (fun ys => Ok (y :: ys)))
  end.

(** A code point and a [str]. *)
Definition char : Set := N.
Definition str : Set := list char.

(** An object-column cell: a string or a missing value. *)
Definition cell : Set := option str.

(** The code points of an ASCII literal. *)
Definition u (s : string) : str := map N_of_ascii (list_ascii_of_string s).

Definition LPAREN : char := 40%N.
Definition RPAREN : char := 41%N.
Definition HYPHEN : char := 45%N.
Definition DOT : char := 46%N.

(** [str.isspace] on one code point (CPython's [_PyUnicode_IsWhitespace]). *)
Definition isspace (c : char) : bool :=
  ((9 <=? c) && (c <=? 13) || (28 <=? c) && (c <=? 32)
   || (c =? 133) || (c =? 160) || (c =? 5760)
   || (8192 <=? c) && (c <=? 8202)
   || (c =? 8232) || (c =? 8233) || (c =? 8239) || (c =? 8287)
   || (c =? 12288))%N.

(** [s.lstrip()], [s.rstrip()] and [s.strip()]. *)
Fixpoint lstrip (s : str) : str :=
  match s with
  | [] => []
  | c :: s' => if isspace c then lstrip s' else s
  end.

Definition rstrip (s : str) : str := rev (lstrip (rev s)).

Definition strip (s : str) : str := rstrip (lstrip s).

(** [s.split()] with no separator: the maximal runs of non-whitespace
    code points, in order.  [cur] is the run being read, reversed. *)
Definition flush (cur : str) (out : list str) : list str :=
  match cur with
  | [] => out
  | _ :: _ => rev cur :: out
  end.

Fixpoint split_from (cur : str) (s : str) : list str :=
  match s with
  | [] => flush cur []
  | c :: s' =>
      if isspace c then flush cur (split_from [] s')
      else split_from (c :: cur) s'
  end.

Definition split (s : str) : list str := split_from [] s.

(** [s.split(sep)] for a one-character separator: always at least one
    segment, empty segments kept. *)
Fixpoint split_on (sep : char) (s : str) : list str :=
  match s with
  | [] => [[]]
  | c :: s' =>
      if (c =? sep)%N then [] :: split_on sep s'
      else match split_on sep s' with
           | seg :: segs => (c :: seg) :: segs
           | [] => [[c]]
           end
  end.

(** [xs[0]] and [xs[-1]]. *)
Definition item0 {A : Type} (xs : list A) : result A :=
  match xs with
  | x :: _ => Ok x
  | [] => Raise IndexError
  end.

Fixpoint item_last {A : Type} (xs : list A) : result A :=
  match xs with
  | [] => Raise IndexError
  | [x] => Ok x
  | _ :: xs' => item_last xs'
  end.

(** Truthiness of a [str]. *)
Definition truthy (s : str) : bool :=
  match s with
  | [] => false
  | _ :: _ => true
  end.

End Py.
Export Py.

Notation "x <- m ;; k" := (bind m (fun x => k))
  (at level 61, m at next level, right associativity).

(* ================================================================== *)
(** * The regular expression of [extract_region]                        *)
(* ================================================================== *)

Module Re.

(** After an opening parenthesis: the text up to the first closing
    parenthesis, when there is one. *)
Fixpoint until_close (s : str) : option str :=
  match s with
  | [] => None
  | c :: s' =>
      if (c =? RPAREN)%N then Some []
      else option_map (cons c) (until_close s')
  end.

(** [re.search(r'\(([^)]+)\)', s)], returning [group(1)] of the leftmost
    match.  At an opening parenthesis the class [[^)]+] can only stop at
    the first closing parenthesis, so a match starts there exactly when
    that text is not empty. *)
Fixpoint search_group (s : str) : option str :=
  match s with
  | [] => None
  | c :: s' =>
      if (c =? LPAREN)%N then
        match until_close s' with
        | Some (b :: body) => Some (b :: body)
        | _ => search_group s'
        end
      else search_group s'
  end.

End Re.

(* ================================================================== *)
(** * Region extraction                                                 *)
(* ================================================================== *)

Definition Unknown : str := u "Unknown".

(** [extract_region], nested in [load_and_preprocess_data]. *)
Definition extract_region (loc : cell) : result str :=
  match loc with
  | None => Ok Unknown                                  (* pd.isna(loc) *)
  | Some s =>
      match Re.search_group s with
      | Some g => Ok (strip g)
      | None =>
          let parts := split_on HYPHEN s in
          if (1 <? length parts)%nat then
            seg <- item_last parts ;;
            item0 (split (strip seg))
          else if truthy s then item0 (split s)
          else Ok Unknown
      end
  end.

(* ================================================================== *)
(** * Dates                                                             *)
(* ================================================================== *)

Module Dates.

Local Open Scope Z_scope.

(** A calendar date, as held in a datetime cell (the time of day is always
    midnight here).  A missing date ([NaT]) is [None]. *)
Record date : Set := mkDate { year : Z; month : Z; day : Z }.

(** The dates a timestamp column can hold.  This is the one point where
    versions of the library differ: a [datetime64[ns]] column holds the
    midnights from 1677-09-22 to 2262-04-11 and turns other dates into
    [NaT] under [errors="coerce"]; a coarser unit holds every date of the
    calendar.  The pipeline is stated for any such range. *)
Class TimestampRange : Type := { representable : date -> bool }.

(** Lexicographic order on dates. *)
Definition date_leb (a b : date) : bool :=
  (year a <? year b)
  || ((year a =? year b)
      && ((month a <? month b)
          || ((month a =? month b) && (day a <=? day b)))).

Definition in_ns_bounds (d : date) : bool :=
  date_leb (mkDate 1677 9 22) d && date_leb d (mkDate 2262 4 11).

Definition ns_range : TimestampRange := {| representable := in_ns_bounds |}.
Definition any_range : TimestampRange := {| representable := fun _ => true |}.

(** The class [\d] of the regular expressions and the digits [int()]
    reads: the decimal digits of Unicode.  They come in runs of ten
    consecutive code points; the table lists the zero of each run
    (Unicode 14, the table of CPython 3.11). *)
Definition digit_zeros : list N :=
  [48; 1632; 1776; 1984; 2406; 2534; 2662; 2790; 2918; 3046; 3174; 3302;
   3430; 3558; 3664; 3792; 3872; 4160; 4240; 6112; 6160; 6470; 6608; 6784;
   6800; 6992; 7088; 7232; 7248; 42528; 43216; 43264; 43472; 43504; 43600;
   44016; 65296; 66720; 68912; 69734; 69872; 69942; 70096; 70384; 70736;
   70864; 71248; 71360; 71472; 71904; 72016; 72784; 73040; 73120; 92768;
   92864; 93008; 120782; 120792; 120802; 120812; 120822; 123200; 123632;
   125264; 130032]%N.

Fixpoint digit_in (zeros : list N) (c : char) : option Z :=
  match zeros with
  | [] => None
  | z :: zeros' =>
      if ((z <=? c) && (c <? z + 10))%N then Some (Z.of_N (c - z))
      else digit_in zeros' c
  end.

Definition decimal (c : char) : option Z := digit_in digit_zeros c.

(** A class of ASCII digits, [[lo-hi]], with the digit's value. *)
Definition ascii_digit (lo hi : Z) (c : char) : option Z :=
  let v := Z.of_N c - 48 in
  if (lo <=? v) && (v <=? hi) then Some v else None.

(** A space where a tens digit may stand ([int(" 6")] is 6). *)
Definition space (c : char) : option Z :=
  if (c =? 32)%N then Some 0 else None.

(** One alternative of a directive: what it reads and what is left. *)
Definition one (f : char -> option Z) (s : str) : option (Z * str) :=
  match s with
  | a :: s' =>
      match f a with
      | Some x => Some (x, s')
      | None => None
      end
  | [] => None
  end.

Definition two (f g : char -> option Z) (s : str) : option (Z * str) :=
  match s with
  | a :: b :: s' =>
      match f a, g b with
      | Some x, Some y => Some (10 * x + y, s')
      | _, _ => None
      end
  | _ => None
  end.

(** [%Y] is [\d\d\d\d]. *)
Definition read_Y (s : str) : option (Z * str) :=
  match s with
  | a :: b :: c :: d :: s' =>
      match decimal a, decimal b, decimal c, decimal d with
      | Some va, Some vb, Some vc, Some vd =>
          Some (1000 * va + 100 * vb + 10 * vc + vd, s')
      | _, _, _, _ => None
      end
  | _ => None
  end.

(** [%m] is [1[0-2]|0[1-9]|[1-9]]. *)
Definition m_alternatives : list (str -> option (Z * str)) :=
  [ two (ascii_digit 1 1) (ascii_digit 0 2);
    two (ascii_digit 0 0) (ascii_digit 1 9);
    one (ascii_digit 1 9) ].

(** [%d] is [3[0-1]|[1-2]\d|0[1-9]|[1-9]| [1-9]]. *)
Definition d_alternatives : list (str -> option (Z * str)) :=
  [ two (ascii_digit 3 3) (ascii_digit 0 1);
    two (ascii_digit 1 2) decimal;
    two (ascii_digit 0 0) (ascii_digit 1 9);
    one (ascii_digit 1 9);
    two space (ascii_digit 1 9) ].

(** Alternation with backtracking: the first alternative, in order, after
    which the rest of the pattern [k] matches. *)
Fixpoint first_match {A : Type} (alts : list (str -> option (Z * str)))
         (k : Z -> str -> option A) (s : str) : option A :=
  match alts with
  | [] => None
  | alt :: alts' =>
      match alt s with
      | Some (v, s') =>
          match k v s' with
          | Some a => Some a
          | None => first_match alts' k s
          end
      | None => first_match alts' k s
      end
  end.

(** A literal character of the template. *)
Definition expect (c : char) (s : str) : option str :=
  match s with
  | x :: s' => if (x =? c)%N then Some s' else None
  | [] => None
  end.

(** [format_regex.match(val)] for the format [%Y.%m.%d]: the date read
    at the start of the string and the text left after it. *)
Definition regex_match (s : str) : option (date * str) :=
  match read_Y s with
  | None => None
  | Some (y, s1) =>
      match expect DOT s1 with
      | None => None
      | Some s2 =>
          first_match m_alternatives
            (fun m s3 =>
               match expect DOT s3 with
               | None => None
               | Some s4 =>
                   first_match d_alternatives
                     (fun d s5 => Some (mkDate y m d, s5)) s4
               end) s2
      end
  end.

(** Exact matching: text left after the match is an error. *)
Definition match_template (s : str) : option date :=
  match regex_match s with
  | Some (d, []) => Some d
  | _ => None
  end.

Definition is_leap (y : Z) : bool :=
  (y mod 4 =? 0) && (negb (y mod 100 =? 0) || (y mod 400 =? 0)).

Definition days_in_month (y m : Z) : Z :=
  if m =? 2 then (if is_leap y then 29 else 28)
  else if (m =? 4) || (m =? 6) || (m =? 9) || (m =? 11) then 30
  else 31.

(** A date of the calendar: years start at 1. *)
Definition valid_date (d : date) : bool :=
  (1 <=? year d)
  && (1 <=? month d) && (month d <=? 12)
  && (1 <=? day d) && (day d <=? days_in_month (year d) (month d)).

(** Model of the library call
    [pd.to_datetime(x, format="%Y.%m.%d", errors="coerce")] on one cell:
    a missing cell, a string that the format does not match exactly, a
    date that is not in the calendar or one that the column cannot hold
    all give [NaT]; nothing raises. *)
Definition to_datetime {R : TimestampRange} (x : cell) : option date :=
  match x with
  | None => None
  | Some s =>
      match match_template s with
      | Some d => if valid_date d && representable d then Some d else None
      | None => None
      end
  end.

(** [.dt.year] on one cell: the year, missing when the date is. *)
Definition dt_year (d : option date) : option Z := option_map year d.

End Dates.

(* ================================================================== *)
(** * Data frames                                                       *)
(* ================================================================== *)

(** NaN tests and comparisons of float cells. *)
Definition notna (x : float) : bool := negb (is_nan x).

(** [Series.between(lo, hi)], both ends included. *)
Definition between (lo hi x : float) : bool :=
  PrimFloat.leb lo x && PrimFloat.leb x hi.

(** A row of the file as [pd.read_csv] delivers it, restricted to the
    columns the program reads (the others pass through untouched). *)
Record csv_row : Set := mkCsv {
  Olus_tarihi : cell;
  Enlem : float;
  Boylam : float;
  Derinlik : float;
  csv_xM : float;
  Yer : cell
}.

(** A row of the frame after the renaming.  [R] is the type of the
    [Region] column: [unit] while the column does not exist yet, [cell]
    once [df["Region"]] has been assigned. *)
Record row (R : Set) : Set := mkRow {
  Date : option Dates.date;
  Year : option Z;
  Latitude : float;
  Longitude : float;
  Depth : float;
  xM : float;
  Location : cell;
  Region : R
}.

Definition frame (R : Set) : Set := list (row R).

(** [s.fillna(v)] on one cell. *)
Definition fillna (v : str) (x : cell) : cell :=
  match x with
  | None => Some v
  | Some _ => x
  end.

Module Pipeline.

(** Renaming, date conversion, [Year], and [Location].fillna. *)
Definition normalize {R : Dates.TimestampRange} (r : csv_row) : row unit :=
  let d := Dates.to_datetime (Olus_tarihi r) in
  {| Date := d;
     Year := Dates.dt_year d;
     Latitude := Enlem r;
     Longitude := Boylam r;
     Depth := Derinlik r;
     xM := csv_xM r;
     Location := fillna Unknown (Yer r);
     Region := tt |}.

(** The coordinate mask (Turkey boundaries). *)
Definition in_bounds (r : row unit) : bool :=
  between 35 43 (Latitude r) && between 25 45 (Longitude r)
  && notna (Latitude r) && notna (Longitude r).

Definition depth_ok (r : row unit) : bool := PrimFloat.leb 0 (Depth r).
Definition mag_ok (r : row unit) : bool := PrimFloat.ltb 0 (xM r).

(** [df["Region"] = df["Location"].apply(extract_region)], row by row. *)
Definition with_region (r : row unit) : result (row cell) :=
  g <- extract_region (Location r) ;;
  Ok {| Date := Date r; Year := Year r;
        Latitude := Latitude r; Longitude := Longitude r;
        Depth := Depth r; xM := xM r;
        Location := Location r; Region := Some g |}.

(** [load_and_preprocess_data], from the parsed file on. *)
Definition load_and_preprocess_data {R : Dates.TimestampRange}
           (csv : list csv_row) : result (frame cell) :=
  let df := map normalize csv in
  let df := filter in_bounds df in
  let df := filter depth_ok df in
  let df := filter mag_ok df in
  mapM with_region df.

End Pipeline.
Export Pipeline.

(* ================================================================== *)
(** * Sidebar filters                                                   *)
(* ================================================================== *)

Module Filters.

(** [df["Year"] >= lo] and [df["Year"] <= hi] on one cell; a missing
    year compares false. *)
Definition year_ge (y : option Z) (lo : Z) : bool :=
  match y with
  | Some v => (lo <=? v)%Z
  | None => false
  end.

Definition year_le (y : option Z) (hi : Z) : bool :=
  match y with
  | Some v => (v <=? hi)%Z
  | None => false
  end.

(** The six-way mask of "Apply filters". *)
Definition range_mask (year_range : Z * Z) (mag_range depth_range : float * float)
           (r : row cell) : bool :=
  year_ge (Year r) (fst year_range)
  && year_le (Year r) (snd year_range)
  && PrimFloat.leb (fst mag_range) (xM r)
  && PrimFloat.leb (xM r) (snd mag_range)
  && PrimFloat.leb (fst depth_range) (Depth r)
  && PrimFloat.leb (Depth r) (snd depth_range).

Definition large_mask (r : row cell) : bool := PrimFloat.leb 5 (xM r).

(** [df_filtered], as a function of the cleaned frame and the four
    sidebar controls. *)
Definition df_filtered (df : frame cell) (year_range : Z * Z)
           (mag_range depth_range : float * float)
           (show_large_only : bool) : frame cell :=
  let df_filtered := filter (range_mask year_range mag_range depth_range) df in
  if show_large_only then filter large_mask df_filtered
  else df_filtered.

End Filters.
Export Filters.

(* ================================================================== *)
(** * Regional statistics (treemap)                                     *)
(* ================================================================== *)

Module Aggregator.

(** A row of [df_region_stats] after the columns are renamed. *)
Record region_stat : Set := mkStat {
  st_Region : str;
  Count : nat;
  Avg_Mag : float;
  Max_Mag : float;
  Avg_Depth : float
}.

(** Equality and the code-point order of [str], which sorts group keys. *)
Fixpoint str_eqb (a b : str) : bool :=
  match a, b with
  | [], [] => true
  | x :: a', y :: b' => (x =? y)%N && str_eqb a' b'
  | _, _ => false
  end.

Fixpoint str_ltb (a b : str) : bool :=
  match a, b with
  | _, [] => false
  | [], _ :: _ => true
  | x :: a', y :: b' => (x <? y)%N || ((x =? y)%N && str_ltb a' b')
  end.

Definition region_is (k : str) (r : row cell) : bool :=
  match Region r with
  | Some k' => str_eqb k k'
  | None => false
  end.

(** The keys of [groupby("Region")]: the distinct non-missing labels, in
    increasing order. *)
Fixpoint insert_key (k : str) (ks : list str) : list str :=
  match ks with
  | [] => [k]
  | k' :: ks' =>
      if str_eqb k k' then ks
      else if str_ltb k k' then k :: ks
      else k' :: insert_key k ks'
  end.

Definition add_key (r : row cell) (ks : list str) : list str :=
  match Region r with
  | Some k => insert_key k ks
  | None => ks
  end.

Definition group_keys (df : frame cell) : list str := fold_right add_key [] df.

Definition group_rows (df : frame cell) (k : str) : frame cell :=
  filter (region_is k) df.

(** The reductions ["count"] and ["max"]; both skip missing values. *)
Definition agg_count (xs : list float) : nat := length (filter notna xs).

Definition max_step (acc x : float) : float :=
  if is_nan x then acc
  else if is_nan acc then x
  else if PrimFloat.ltb acc x then x else acc.

Definition agg_max (xs : list float) : float := fold_left max_step xs nan.

(** A stable sort by decreasing [Count]: rows of equal [Count] keep their
    original order. *)
Fixpoint insert_desc (s : region_stat) (l : list region_stat) : list region_stat :=
  match l with
  | [] => [s]
  | t :: l' =>
      if (Count t <=? Count s)%nat then s :: l
      else t :: insert_desc s l'
  end.

Definition sort_desc (l : list region_stat) : list region_stat :=
  fold_right insert_desc [] l.

(** [a] comes before [b] in decreasing order of [Count]. *)
Definition ge_count (a b : region_stat) : Prop := (Count b <= Count a)%nat.

(** [sort_values(ascending=False)] with the library's default sort, which
    is not stable: the rows by decreasing [Count], rows of equal [Count]
    in an order the library does not promise.  The statistics are stated
    for any such sort. *)
Class SortValues : Type := {
  sort_values_desc : list region_stat -> list region_stat;
  sort_values_perm : forall l, Permutation (sort_values_desc l) l;
  sort_values_sorted : forall l, StronglySorted ge_count (sort_values_desc l)
}.

(** [DataFrame.nlargest(n, "Count")].  With more than [n] rows the
    library selects and orders them with a stable sort, so that rows of
    equal [Count] keep their original order (keep="first"); with [n] rows
    or fewer it returns [sort_values(ascending=False).head(n)]. *)
Definition nlargest {S : SortValues} (n : nat) (l : list region_stat) : list region_stat :=
  if (n <? length l)%nat then firstn n (sort_desc l)
  else firstn n (sort_values_desc l).

Section WithMean.

(** The ["mean"] reduction of a group's column is a floating-point
    average computed by the library; the statistics are stated for
    any such function. *)
Variable mean : list float -> float.
Context {S : SortValues}.

Definition agg (df : frame cell) (k : str) : region_stat :=
  let g := group_rows df k in
  {| st_Region := k;
     Count := agg_count (map (@xM cell) g);
     Avg_Mag := mean (map (@xM cell) g);
     Max_Mag := agg_max (map (@xM cell) g);
     Avg_Depth := mean (map (@Depth cell) g) |}.

(** [groupby("Region").agg(...).reset_index()] with the new column
    names. *)
Definition grouped (view : frame cell) : list region_stat :=
  map (agg view) (group_keys view).

(** [df_region_stats] after the threshold on [Count]. *)
Definition df_region_stats (view : frame cell) : list region_stat :=
  filter (fun s => (10 <=? Count s)%nat) (grouped view).

(** The frame handed to [px.treemap]. *)
Definition treemap_rows (view : frame cell) : list region_stat :=
  nlargest 25 (df_region_stats view).

End WithMean.

End Aggregator.
Export Aggregator.

(* ================================================================== *)
(** * The region rules, as the specification words them                 *)
(* ================================================================== *)

Module RegionRules.

Definition blank (s : str) : Prop := Forall (fun c => isspace c = true) s.
Definition solid (s : str) : Prop := Forall (fun c => isspace c = false) s.

(** [t] neither starts nor ends with whitespace. *)
Definition tight (t : str) : Prop :=
  (forall c t', t = c :: t' -> isspace c = false)
  /\ (forall c t', t = t' ++ [c] -> isspace c = false).

(** [t] is [s] without its leading and trailing whitespace. *)
Definition trimmed (s t : str) : Prop :=
  exists l r, s = l ++ t ++ r /\ blank l /\ blank r /\ tight t.

(** [body] is some text enclosed in parentheses inside [s], after [pre]. *)
Definition paren_group (s pre body post : str) : Prop :=
  s = pre ++ LPAREN :: body ++ RPAREN :: post
  /\ body <> [] /\ ~ In RPAREN body.

Definition has_paren_group (s : str) : Prop :=
  exists pre body post, paren_group s pre body post.

(** The first such group: none opens further to the left. *)
Definition first_paren_group (s body : str) : Prop :=
  exists pre post,
    paren_group s pre body post
    /\ forall pre' body' post',
         paren_group s pre' body' post' -> (length pre <= length pre')%nat.

(** [seg] is the last of two or more hyphen-separated segments of [s]. *)
Definition last_segment (s seg : str) : Prop :=
  exists pre, s = pre ++ HYPHEN :: seg /\ ~ In HYPHEN seg.

(** [tok] is the first whitespace-delimited token of [s]. *)
Definition first_token (s tok : str) : Prop :=
  exists l rest,
    s = l ++ tok ++ rest /\ blank l /\ tok <> [] /\ solid tok
    /\ (rest = [] \/ exists c rest', rest = c :: rest' /\ isspace c = true).

(** Rules 1 to 3, in priority order. *)
Inductive region_rule (s : str) : str -> Prop :=
| rule_parenthesis (body label : str) :
    first_paren_group s body ->
    trimmed body label ->
    region_rule s label
| rule_hyphen (seg seg' tok : str) :
    ~ has_paren_group s ->
    last_segment s seg ->
    trimmed seg seg' ->
    first_token seg' tok ->
    region_rule s tok
| rule_first_token (tok : str) :
    ~ has_paren_group s ->
    ~ In HYPHEN s ->
    first_token s tok ->
    region_rule s tok.

End RegionRules.

(* ================================================================== *)
(** * The date template, exact and as the library reads it              *)
(* ================================================================== *)

Module DateTemplate.

Import Dates.
Local Open Scope Z_scope.








End DateTemplate.

(** The data-quality invariant of a cleaned row. *)
Definition clean_row (r : row cell) : Prop :=
  (is_nan (Latitude r) = false
   /\ PrimFloat.leb 35 (Latitude r) = true /\ PrimFloat.leb (Latitude r) 43 = true)
  /\ (is_nan (Longitude r) = false
      /\ PrimFloat.leb 25 (Longitude r) = true /\ PrimFloat.leb (Longitude r) 45 = true)
  /\ (is_nan (Depth r) = false /\ PrimFloat.leb 0 (Depth r) = true)
  /\ (is_nan (xM r) = false /\ PrimFloat.ltb 0 (xM r) = true)
  /\ Region r <> None.


(* ================================================================== *)
(** * Further notions used to describe the pipeline and the views       *)
(* ================================================================== *)

(** The quality gates as one mask on a row of the file. *)
Definition gate (r : csv_row) : bool :=
  between 35 43 (Enlem r) && between 25 45 (Boylam r)
  && PrimFloat.leb 0 (Derinlik r) && PrimFloat.ltb 0 (csv_xM r).

(** [r'] is the cleaned row that the file row [r] gives. *)
Definition cleaned_from {R : Dates.TimestampRange} (r : csv_row) (r' : row cell) : Prop :=
  Date r' = Dates.to_datetime (Olus_tarihi r)
  /\ Year r' = Dates.dt_year (Dates.to_datetime (Olus_tarihi r))
  /\ Latitude r' = Enlem r /\ Longitude r' = Boylam r
  /\ Depth r' = Derinlik r /\ xM r' = csv_xM r
  /\ Location r' = fillna Unknown (Yer r)
  /\ exists label, extract_region (fillna Unknown (Yer r)) = Ok label
                   /\ Region r' = Some label.

(** A string on which [extract_region] finds no label: no parenthetical
    group, and either nothing but whitespace after the last hyphen, or no
    hyphen and nothing but whitespace at all. *)
Definition degenerate (s : str) : Prop :=
  ~ RegionRules.has_paren_group s
  /\ ((exists pre seg, s = pre ++ HYPHEN :: seg /\ RegionRules.blank seg)
      \/ (s <> [] /\ RegionRules.blank s)).

(** The order of the rows handed to the treemap: by decreasing [Count],
    and by increasing region among equal counts. *)
Definition treemap_before (a b : region_stat) : Prop :=
  (Count b < Count a)%nat
  \/ (Count a = Count b /\ str_ltb (st_Region a) (st_Region b) = true).

(** The order of group keys, on labels and on rows of statistics. *)
Definition key_lt (a b : str) : Prop := str_ltb a b = true.

Definition by_key (a b : region_stat) : Prop := key_lt (st_Region a) (st_Region b).

Module Sidebar.

(** [int(x)] on a float cell of whole value raises [ValueError] on NaN. *)
Inductive startup (A : Type) : Type :=
| Started (a : A)
| ValueError.
Arguments Started {A} a.
Arguments ValueError {A}.

(** [df["Year"].min()] and [.max()]: missing years are skipped; with no
    year at all the result is missing. *)
Definition min_step (acc : option Z) (y : option Z) : option Z :=
  match y, acc with
  | None, _ => acc
  | Some v, None => Some v
  | Some v, Some a => Some (Z.min a v)
  end.

Definition max_step (acc : option Z) (y : option Z) : option Z :=
  match y, acc with
  | None, _ => acc
  | Some v, None => Some v
  | Some v, Some a => Some (Z.max a v)
  end.

Definition year_min (df : frame cell) : option Z :=
  fold_left min_step (map (@Year cell) df) None.

Definition year_max (df : frame cell) : option Z :=
  fold_left max_step (map (@Year cell) df) None.

Definition py_int (x : option Z) : startup Z :=
  match x with
  | Some v => Started v
  | None => ValueError
  end.

(** The bounds and the default value computed for the "Year Range"
    slider: [min_value], [max_value] and [value], in the order the
    arguments are evaluated. *)
Definition year_slider (df : frame cell) : startup (Z * Z * (Z * Z)) :=
  match py_int (year_min df) with
  | ValueError => ValueError
  | Started lo =>
      match py_int (year_max df) with
      | ValueError => ValueError
      | Started hi =>
          match py_int (year_max df) with
          | ValueError => ValueError
          | Started hi' => Started (lo, hi, (2000%Z, hi'))
          end
      end
  end.

(** [float(df["xM"].max())]: the largest magnitude, missing values
    skipped. *)
Definition mag_max (df : frame cell) : float := agg_max (map (@xM cell) df).

(** The default selections of the magnitude and depth sliders. *)
Definition mag_default (df : frame cell) : float * float := (3.5%float, mag_max df).

Definition depth_default : float * float := (0%float, 100%float).

End Sidebar.

(* ================================================================== *)
(** * A small catalogue used to exercise the definitions                *)
(* ================================================================== *)

Module Samples.

(** Four rows of a file: a well-formed event, an event whose date is
    written day first, an event outside the bounding box, and an event
    without depth. *)
Definition pazarcik : csv_row :=
  mkCsv (Some (u "2023.02.06")) 37.25 37 10 7.75 (Some (u "Kahramanmaras (Pazarcik)")).

Definition doganyol : csv_row :=
  mkCsv (Some (u "06-02-2023")) 38 38.5 7 5.5 (Some (u "Malatya-Doganyol")).

Definition far_north : csv_row :=
  mkCsv (Some (u "1999.08.17")) 50 30 17 7.5 (Some (u "Izmit")).

Definition no_depth : csv_row :=
  mkCsv (Some (u "2011.10.23")) 38.75 43.5 nan 7 (Some (u "Van (Ercis)")).

Definition csv : list csv_row := [pazarcik; doganyol; far_north; no_depth].

(** An event whose location ends with a hyphen. *)
Definition trailing_hyphen : csv_row :=
  mkCsv (Some (u "2011.10.23")) 38.75 43.5 5 7 (Some (u "Van-")).

Definition pazarcik_clean : row cell :=
  mkRow (Some (Dates.mkDate 2023 2 6)) (Some 2023%Z) 37.25 37 10 7.75
        (Some (u "Kahramanmaras (Pazarcik)")) (Some (u "Pazarcik")).

Definition doganyol_clean : row cell :=
  mkRow None None 38 38.5 7 5.5
        (Some (u "Malatya-Doganyol")) (Some (u "Doganyol")).

Definition df : frame cell := [pazarcik_clean; doganyol_clean].

(** Ten events of one region and nine of another, all within the
    default sidebar ranges. *)
Definition event (region : string) : row cell :=
  mkRow (Some (Dates.mkDate 2020 1 24)) (Some 2020%Z) 38.5 39 10 5.5
        (Some (u region)) (Some (u region)).

Definition ten_and_nine : frame cell :=
  repeat (event "Sivrice") 10 ++ repeat (event "Puturge") 9.

(** A stand-in for the library's mean, for running the aggregation. *)
Definition first_or_nan (xs : list float) : float := hd nan xs.

End Samples.

Module Crowd.

(** Twenty-six regions of ten events each. *)
Definition regions : list string :=
  ["Adana"; "Bingol"; "Canakkale"; "Denizli"; "Elazig"; "Erzincan";
   "Erzurum"; "Gediz"; "Golcuk"; "Hakkari"; "Izmir"; "Izmit"; "Karliova";
   "Kutahya"; "Malatya"; "Manisa"; "Marmaris"; "Mugla"; "Mus"; "Pazarcik";
   "Simav"; "Sivrice"; "Tatvan"; "Tokat"; "Van"; "Varto"]%string.

Definition events : frame cell :=
  flat_map (fun region => repeat (Samples.event region) 10) regions.

End Crowd.

(* ================================================================== *)
(** * Facts about the string operations                                 *)
(* ================================================================== *)

Unset Implicit Arguments.

Section StringFacts.

Import RegionRules.

Lemma lstrip_blank (l s : str) : blank l -> lstrip (l ++ s) = lstrip s.
Proof.
  induction 1 as [|c l Hc _ IH]; simpl; [reflexivity|].
  now rewrite Hc.
Qed.

Lemma lstrip_blank_nil (l : str) : blank l -> lstrip l = [].
Proof.
  intros H. rewrite <- (app_nil_r l), lstrip_blank by assumption. reflexivity.
Qed.

Lemma lstrip_head (c : char) (s : str) : isspace c = false -> lstrip (c :: s) = c :: s.
Proof. intros H; simpl; now rewrite H. Qed.

Lemma blank_rev (l : str) : blank l -> blank (rev l).
Proof. apply Forall_rev. Qed.

(** Trimming, declaratively, is what [strip] computes. *)
Lemma strip_trimmed (s t : str) : trimmed s t -> strip s = t.
Proof.
  intros (l & r & -> & Hl & Hr & Hfst & Hlst).
  unfold strip, rstrip. rewrite lstrip_blank by assumption.
  destruct t as [|c t].
  - simpl. rewrite (lstrip_blank_nil r Hr). reflexivity.
  - simpl app. rewrite lstrip_head by (eapply Hfst; reflexivity).
    change (c :: t ++ r) with ((c :: t) ++ r).
    rewrite rev_app_distr, lstrip_blank by (now apply blank_rev).
    destruct (rev (c :: t)) as [|d t'] eqn:E.
    + apply (f_equal (@rev _)) in E. rewrite rev_involutive in E. discriminate.
    + rewrite lstrip_head.
      * rewrite <- E. apply rev_involutive.
      * apply (Hlst d (rev t')).
        apply (f_equal (@rev _)) in E. rewrite rev_involutive in E.
        exact E.
Qed.

Lemma split_from_blank (l s : str) : blank l -> split_from [] (l ++ s) = split_from [] s.
Proof.
  induction 1 as [|c l Hc _ IH]; simpl; [reflexivity|].
  now rewrite Hc.
Qed.

Lemma split_from_solid (tok cur s : str) :
  solid tok -> split_from cur (tok ++ s) = split_from (rev tok ++ cur) s.
Proof.
  intros H. revert cur. induction H as [|c tok Hc _ IH]; intros cur; simpl.
  - reflexivity.
  - rewrite Hc, IH, <- app_assoc. reflexivity.
Qed.

(** The first token, declaratively, is element 0 of [split]. *)
Lemma split_first_token (s tok : str) :
  first_token s tok -> exists more, split s = tok :: more.
Proof.
  intros (l & rest & -> & Hl & Hne & Hsolid & Hrest).
  unfold split. rewrite split_from_blank, split_from_solid by assumption.
  rewrite app_nil_r.
  assert (Hflush : forall out, flush (rev tok) out = tok :: out).
  { intros out. unfold flush. destruct (rev tok) eqn:E.
    - apply (f_equal (@rev _)) in E. rewrite rev_involutive in E.
      now destruct Hne.
    - rewrite <- E, rev_involutive. reflexivity. }
  destruct Hrest as [-> | (c & rest' & -> & Hc)]; simpl.
  - eexists; apply Hflush.
  - rewrite Hc. eexists; apply Hflush.
Qed.

Lemma first_token_truthy (s tok : str) : first_token s tok -> truthy s = true.
Proof.
  intros (l & rest & -> & _ & Hne & _).
  destruct l; [destruct tok; [now destruct Hne|]|]; reflexivity.
Qed.

Lemma split_on_absent (sep : char) (s : str) :
  ~ In sep s -> split_on sep s = [s].
Proof.
  induction s as [|c s IH]; simpl; intros H; [reflexivity|].
  destruct (N.eqb_spec c sep) as [->|_]; [now destruct H; left|].
  rewrite IH by tauto. reflexivity.
Qed.

(** With a separator present there are at least two segments and the
    last one is the text after the last separator. *)
Lemma split_on_last (sep : char) (pre seg : str) :
  ~ In sep seg ->
  (1 <? length (split_on sep (pre ++ sep :: seg)))%nat = true
  /\ item_last (split_on sep (pre ++ sep :: seg)) = Ok seg.
Proof.
  intros Hseg. induction pre as [|c pre [IHlen IHlast]]; simpl.
  - rewrite N.eqb_refl, (split_on_absent sep seg Hseg). split; reflexivity.
  - destruct (c =? sep)%N.
    + destruct (split_on sep (pre ++ sep :: seg)) as [|a [|b l]];
        try discriminate. split; [reflexivity | exact IHlast].
    + destruct (split_on sep (pre ++ sep :: seg)) as [|a [|b l]];
        try discriminate. split; [reflexivity | exact IHlast].
Qed.

End StringFacts.

(* ================================================================== *)
(** * Facts about the parenthesis search                                *)
(* ================================================================== *)

Section SearchFacts.

Import RegionRules.

Lemma until_close_app (body post : str) :
  ~ In RPAREN body -> Re.until_close (body ++ RPAREN :: post) = Some body.
Proof.
  induction body as [|c body IH]; simpl; intros H.
  - reflexivity.
  - destruct (N.eqb_spec c RPAREN) as [->|_]; [now destruct H; left|].
    rewrite IH by tauto. reflexivity.
Qed.

Lemma until_close_sound (s body : str) :
  Re.until_close s = Some body ->
  exists post, s = body ++ RPAREN :: post /\ ~ In RPAREN body.
Proof.
  revert body. induction s as [|c s IH]; simpl; intros body H; [discriminate|].
  destruct (N.eqb_spec c RPAREN) as [->|Hc].
  - injection H as <-. exists s. split; [reflexivity | intros []].
  - destruct (Re.until_close s) as [b|]; [|discriminate].
    injection H as <-. destruct (IH b eq_refl) as (post & -> & Hb).
    exists post. split; [reflexivity|].
    intros [E|E]; [now apply Hc | now apply Hb].
Qed.

(** Whatever the search returns is a parenthetical group of the string. *)
Lemma search_group_sound (s body : str) :
  Re.search_group s = Some body -> has_paren_group s.
Proof.
  induction s as [|c s IH]; simpl; intros H; [discriminate|].
  assert (Hrec : Re.search_group s = Some body -> has_paren_group (c :: s)).
  { intros H'. destruct (IH H') as (pre & b & post & -> & Hb).
    exists (c :: pre), b, post. split; [reflexivity | exact Hb]. }
  destruct (N.eqb_spec c LPAREN) as [->|_]; [|now apply Hrec].
  destruct (Re.until_close s) as [[|b0 b]|] eqn:E; try now apply Hrec.
  destruct (until_close_sound _ _ E) as (post & -> & Hb).
  exists [], (b0 :: b), post. repeat split; [discriminate | exact Hb].
Qed.

Lemma search_group_none (s : str) :
  ~ has_paren_group s -> Re.search_group s = None.
Proof.
  intros H. destruct (Re.search_group s) eqn:E; [|reflexivity].
  destruct H. eapply search_group_sound, E.
Qed.

(** The search returns the leftmost group. *)
Lemma search_group_first (s body : str) :
  first_paren_group s body -> Re.search_group s = Some body.
Proof.
  intros (pre & post & (Hs & Hne & Hno) & Hmin).
  revert s Hs Hmin. induction pre as [|c pre IH]; intros s -> Hmin; simpl.
  - rewrite (until_close_app body post Hno). destruct body; [now destruct Hne | reflexivity].
  - assert (Hrec : Re.search_group (pre ++ LPAREN :: body ++ RPAREN :: post) = Some body).
    { apply IH; [reflexivity|]. intros pre' body' post' (E & Hb').
      assert (Hle : (length (c :: pre) <= length (c :: pre'))%nat).
      { apply (Hmin (c :: pre') body' post'). split; [|exact Hb'].
        simpl. now rewrite E. }
      simpl in Hle. lia. }
    destruct (N.eqb_spec c LPAREN) as [->|_]; [|exact Hrec].
    destruct (Re.until_close _) as [[|b0 b]|] eqn:E; try exact Hrec.
    destruct (until_close_sound _ _ E) as (post' & E' & Hb).
    assert (Hle : (length (LPAREN :: pre) <= length (@nil char))%nat).
    { apply (Hmin [] (b0 :: b) post'). split; [|split; [discriminate | exact Hb]].
      simpl. now rewrite E'. }
    simpl in Hle. lia.
Qed.

(** Conversely, what the search returns is the leftmost group. *)
Lemma search_group_leftmost (s body : str) :
  Re.search_group s = Some body -> first_paren_group s body.
Proof.
  revert body. induction s as [|c s IH]; simpl; intros body H; [discriminate|].
  assert (Hrec : Re.search_group s = Some body ->
                 (forall b post, s = b ++ RPAREN :: post -> ~ In RPAREN b ->
                                 c = LPAREN -> b = []) ->
                 first_paren_group (c :: s) body).
  { intros H' Hhere. destruct (IH body H') as (pre & post & (-> & Hb) & Hmin).
    exists (c :: pre), post. split; [split; [reflexivity | exact Hb]|].
    intros [|c' pre'] body' post' (E & Hne' & Hno'); simpl in E.
    - injection E as -> E. destruct Hne'. exact (Hhere body' post' E Hno' eq_refl).
    - injection E as <- E. simpl.
      apply le_n_S, (Hmin pre' body' post'). split; [exact E | now split]. }
  destruct (N.eqb_spec c LPAREN) as [->|Hc].
  - destruct (Re.until_close s) as [[|b0 b]|] eqn:E.
    + apply Hrec; [exact H|]. intros b post Es Hb _.
      rewrite Es, (until_close_app b post Hb) in E. now injection E.
    + injection H as <-.
      destruct (until_close_sound _ _ E) as (post & -> & Hb).
      exists [], post. split; [split; [reflexivity | split; [discriminate | exact Hb]]|].
      intros; simpl; lia.
    + apply Hrec; [exact H|]. intros b post Es Hb _.
      rewrite Es, (until_close_app b post Hb) in E. discriminate.
  - apply Hrec; [exact H|]. intros b post _ _ E. now destruct Hc.
Qed.

Lemma search_group_absent (s : str) :
  ~ In LPAREN s -> Re.search_group s = None.
Proof.
  intros H. apply search_group_none. intros (pre & body & post & -> & _).
  apply H, in_or_app. right. now left.
Qed.

End SearchFacts.

(* ================================================================== *)
(** * Region extraction: the rules, the examples, the degenerate cases  *)
(* ================================================================== *)

Section RegionTheorems.

(** The range of dates the timestamp column can hold is arbitrary. *)
Context {R : Dates.TimestampRange}.

Import RegionRules.

(** C2. For a location string [s], [extract_region] follows the three
    rules in priority order, first match winning: when [s] holds text in
    parentheses the label is the trimmed text of the first such group,
    whatever hyphens or later groups [s] also holds; otherwise, when a
    hyphen splits [s] in two or more segments, the label is the first
    whitespace-delimited token of the trimmed last segment; otherwise it
    is the first whitespace-delimited token of [s]. *)
Theorem extract_region_follows_rules (s label : str) :
  region_rule s label -> extract_region (Some s) = Ok label.
Proof.
  intros H. unfold extract_region.
  destruct H as [body label Hfirst Htrim
                | seg seg' tok Hnone Hseg Htrim Htok
                | tok Hnone Hhy Htok].
  - rewrite (search_group_first s body Hfirst).
    now rewrite (strip_trimmed body label Htrim).
  - rewrite (search_group_none s Hnone).
    destruct Hseg as (pre & -> & Hlast).
    destruct (split_on_last HYPHEN pre seg Hlast) as [Hlen Hitem].
    cbv zeta. rewrite Hlen, Hitem. simpl bind.
    rewrite (strip_trimmed seg seg' Htrim).
    destruct (split_first_token seg' tok Htok) as [more ->]. reflexivity.
  - rewrite (search_group_none s Hnone).
    cbv zeta. rewrite (split_on_absent HYPHEN s Hhy). simpl.
    rewrite (first_token_truthy s tok Htok).
    destruct (split_first_token s tok Htok) as [more ->]. reflexivity.
Qed.

(** C4. The three worked examples of the region extractor. *)
Theorem extract_region_examples :
  extract_region (Some (u "Van (Ercis)")) = Ok (u "Ercis")
  /\ extract_region (Some (u "Malatya-Doganyol")) = Ok (u "Doganyol")
  /\ extract_region (Some (u "Hakkari Yuksekova")) = Ok (u "Hakkari").
Proof. repeat split; reflexivity. Qed.

Lemma split_blank (s : str) : blank s -> split s = [].
Proof.
  intros H. unfold split.
  rewrite <- (app_nil_r s), (split_from_blank s [] H). reflexivity.
Qed.

Lemma blank_absent (c : char) (s : str) : isspace c = false -> blank s -> ~ In c s.
Proof.
  intros Hc Hs Hin. unfold blank in Hs. rewrite Forall_forall in Hs.
  specialize (Hs c Hin). congruence.
Qed.

Lemma strip_blank (s : str) : blank s -> strip s = [].
Proof.
  intros H. unfold strip. rewrite (lstrip_blank_nil s H). reflexivity.
Qed.

(** C3. The empty string gives ["Unknown"], but the other degenerate
    strings are not handled: a string of whitespace only, and a string
    whose last hyphen is followed by whitespace only (["Van-"]), raise
    [IndexError] instead of giving a label, and one such location in a
    row that passes the quality gates aborts the whole pipeline.  A
    parenthesis around whitespace only gives the empty label. *)
Theorem extract_region_degenerate_raises :
  extract_region (Some (u "")) = Ok Unknown
  /\ extract_region (Some (u " ")) = Raise IndexError
  /\ extract_region (Some (u "Van-")) = Raise IndexError
  /\ (forall s, s <> [] -> blank s -> extract_region (Some s) = Raise IndexError)
  /\ (forall pre seg,
        ~ has_paren_group (pre ++ HYPHEN :: seg) -> blank seg ->
        extract_region (Some (pre ++ HYPHEN :: seg)) = Raise IndexError)
  /\ load_and_preprocess_data [Samples.pazarcik; Samples.trailing_hyphen]
     = Raise IndexError
  /\ extract_region (Some (u "Van ( )")) = Ok [].
Proof.
  do 3 (split; [reflexivity|]). split; [|split; [|split; reflexivity]].
  - intros s Hne Hs. unfold extract_region.
    rewrite (search_group_absent s (blank_absent LPAREN s eq_refl Hs)).
    cbv zeta. rewrite (split_on_absent HYPHEN s (blank_absent HYPHEN s eq_refl Hs)).
    simpl. rewrite (split_blank s Hs).
    destruct s; [now destruct Hne | reflexivity].
  - intros pre seg Hnone Hseg. unfold extract_region.
    rewrite (search_group_none _ Hnone). cbv zeta.
    destruct (split_on_last HYPHEN pre seg (blank_absent HYPHEN seg eq_refl Hseg))
      as [Hlen Hitem].
    rewrite Hlen, Hitem. simpl bind. rewrite (strip_blank seg Hseg). reflexivity.
Qed.

(** A location that meets rule 1 although it also holds a hyphen and a
    second group: ["Van-Merkez (Ercis) (Tatvan)"]. *)
Lemma extract_region_follows_rules_witness :
  region_rule (u "Van-Merkez (Ercis) (Tatvan)") (u "Ercis")
  /\ extract_region (Some (u "Van-Merkez (Ercis) (Tatvan)")) = Ok (u "Ercis").
Proof.
  assert (H : region_rule (u "Van-Merkez (Ercis) (Tatvan)") (u "Ercis")).
  { apply rule_parenthesis with (body := u "Ercis").
    - apply search_group_leftmost. reflexivity.
    - exists [], []. repeat split; try constructor.
      + intros c t' E. injection E as <- _. reflexivity.
      + intros c t' E.
        assert (E' : rev (u "Ercis") = rev (t' ++ [c])) by now rewrite E.
        rewrite rev_app_distr in E'. injection E' as <- _. reflexivity. }
  split; [exact H | exact (extract_region_follows_rules _ _ H)].
Defined.

End RegionTheorems.

(* ================================================================== *)
(** * Facts about float comparisons, [filter] and [mapM]                *)
(* ================================================================== *)

Section FloatFacts.

(** A comparison that holds has no NaN on its right. *)
Lemma leb_notna (c x : float) : PrimFloat.leb c x = true -> is_nan x = false.
Proof.
  unfold is_nan. rewrite leb_spec, eqb_spec. unfold SFleb, SFeqb.
  destruct (Prim2SF c) as [ | | |sc mc ec],
           (Prim2SF x) as [ [|] | [|] | | [|] m e];
    simpl; try discriminate; try reflexivity;
    intros _; rewrite ?Z.compare_refl, ?Pos.compare_cont_refl; reflexivity.
Qed.

Lemma ltb_notna (c x : float) : PrimFloat.ltb c x = true -> is_nan x = false.
Proof.
  unfold is_nan. rewrite ltb_spec, eqb_spec. unfold SFltb, SFeqb.
  destruct (Prim2SF c) as [ | | |sc mc ec],
           (Prim2SF x) as [ [|] | [|] | | [|] m e];
    simpl; try discriminate; try reflexivity;
    intros _; rewrite ?Z.compare_refl, ?Pos.compare_cont_refl; reflexivity.
Qed.

(** 3.5 is below 5.0, so whatever is at least 5.0 is at least 3.5. *)
Lemma leb_5_leb_3_5 (x : float) :
  PrimFloat.leb 5 x = true -> PrimFloat.leb 3.5 x = true.
Proof.
  rewrite !leb_spec.
  change (Prim2SF 5) with (S754_finite false 5629499534213120 (-50)).
  change (Prim2SF 3.5) with (S754_finite false 7881299347898368 (-51)).
  unfold SFleb, SFcompare.
  destruct (Prim2SF x) as [ [|] | [|] | | [|] m e];
    try discriminate; try reflexivity.
  destruct (Z.compare_spec (-50) e); destruct (Z.compare_spec (-51) e);
    try lia; try reflexivity; discriminate.
Qed.

End FloatFacts.

Section ListFacts.

Context {A B : Type}.

Lemma filter_all (f : A -> bool) (l : list A) :
  (forall x, In x l -> f x = true) -> filter f l = l.
Proof.
  induction l as [|a l IH]; simpl; intros H; [reflexivity|].
  rewrite (H a (or_introl eq_refl)), IH; [reflexivity|].
  intros x Hx. apply H. now right.
Qed.

Lemma filter_idem (f : A -> bool) (l : list A) :
  filter f (filter f l) = filter f l.
Proof. apply filter_all. intros x Hx. now apply filter_In in Hx. Qed.

Lemma filter_filter (f g : A -> bool) (l : list A) :
  filter g (filter f l) = filter (fun x => f x && g x) l.
Proof.
  induction l as [|a l IH]; simpl; [reflexivity|].
  destruct (f a); simpl; [destruct (g a)|]; now rewrite IH.
Qed.

(** What a successful traversal returns, element by element. *)
Lemma mapM_Ok (f : A -> result B) (xs : list A) (ys : list B) :
  mapM f xs = Ok ys -> Forall2 (fun x y => f x = Ok y) xs ys.
Proof.
  revert ys. induction xs as [|x xs IH]; simpl; intros ys H.
  - injection H as <-. constructor.
  - destruct (f x) as [y|e] eqn:Ex; simpl in H; [|discriminate].
    destruct (mapM f xs) as [ys'|e]; simpl in H; [|discriminate].
    injection H as <-. constructor; [exact Ex | now apply IH].
Qed.

Lemma Forall2_In_l (R : A -> B -> Prop) (xs : list A) (ys : list B) (x : A) :
  Forall2 R xs ys -> In x xs -> exists y, In y ys /\ R x y.
Proof.
  induction 1 as [|a b xs ys Hab _ IH]; simpl; [intros []|].
  intros [<-|Hx].
  - exists b. split; [now left | exact Hab].
  - destruct (IH Hx) as (y & Hy & Hxy). exists y. split; [now right | exact Hxy].
Qed.

Lemma Forall2_In_r (R : A -> B -> Prop) (xs : list A) (ys : list B) (y : B) :
  Forall2 R xs ys -> In y ys -> exists x, In x xs /\ R x y.
Proof.
  induction 1 as [|a b xs ys Hab _ IH]; simpl; [intros []|].
  intros [<-|Hy].
  - exists a. split; [now left | exact Hab].
  - destruct (IH Hy) as (x & Hx & Hxy). exists x. split; [now right | exact Hxy].
Qed.

End ListFacts.

(* ================================================================== *)
(** * The cleaning pipeline                                             *)
(* ================================================================== *)

Section PipelineTheorems.

(** The range of dates the timestamp column can hold is arbitrary. *)
Context {R : Dates.TimestampRange}.

Lemma with_region_Ok (a : row unit) (b : row cell) :
  with_region a = Ok b ->
  Date b = Date a /\ Year b = Year a
  /\ Latitude b = Latitude a /\ Longitude b = Longitude a
  /\ Depth b = Depth a /\ xM b = xM a
  /\ Location b = Location a
  /\ exists g, extract_region (Location a) = Ok g /\ Region b = Some g.
Proof.
  unfold with_region. destruct (extract_region (Location a)) as [g|e]; simpl;
    [|discriminate].
  intros H. injection H as <-. simpl. repeat split. now exists g.
Qed.

(** The rows that reach region extraction passed the three masks. *)
Lemma load_rows (csv : list csv_row) (df : frame cell) :
  load_and_preprocess_data csv = Ok df ->
  Forall2 (fun a b => with_region a = Ok b)
          (filter mag_ok (filter depth_ok (filter in_bounds (map normalize csv))))
          df.
Proof. apply mapM_Ok. Qed.

(** C1. Every row of the cleaned dataset has a latitude that is not
    missing and lies in [35, 43], a longitude that is not missing and
    lies in [25, 45], a depth that is not missing and is at least 0, a
    magnitude [xM] that is not missing and is above 0, and a region that
    is not missing. *)
Theorem cleaned_rows_invariant (csv : list csv_row) (df : frame cell) :
  load_and_preprocess_data csv = Ok df -> Forall clean_row df.
Proof.
  intros H. apply load_rows in H. apply Forall_forall. intros b Hb.
  destruct (Forall2_In_r _ _ _ b H Hb) as (a & Ha & Hab).
  apply filter_In in Ha as [Ha Hmag].
  apply filter_In in Ha as [Ha Hdepth].
  apply filter_In in Ha as [_ Hbounds].
  apply with_region_Ok in Hab
    as (_ & _ & Elat & Elon & Edepth & Emag & _ & g & _ & Eg).
  unfold in_bounds, between, notna in Hbounds.
  rewrite !andb_true_iff, !negb_true_iff in Hbounds.
  destruct Hbounds as [[[[Hlat1 Hlat2] [Hlon1 Hlon2]] Hlat] Hlon].
  unfold clean_row. rewrite Elat, Elon, Edepth, Emag, Eg.
  split; [now repeat split|]. split; [now repeat split|].
  split; [split; [exact (leb_notna _ _ Hdepth) | exact Hdepth]|].
  split; [split; [exact (ltb_notna _ _ Hmag) | exact Hmag]|].
  discriminate.
Qed.

End PipelineTheorems.

Section PipelineExamples.

(** The sample catalogue cleans to two rows, each within the invariant. *)
Lemma cleaned_rows_invariant_witness :
  load_and_preprocess_data (R := Dates.ns_range) Samples.csv = Ok Samples.df
  /\ Forall clean_row Samples.df.
Proof.
  assert (H : load_and_preprocess_data (R := Dates.ns_range) Samples.csv = Ok Samples.df)
    by reflexivity.
  split; [exact H | exact (cleaned_rows_invariant Samples.csv Samples.df H)].
Defined.

End PipelineExamples.

(* ================================================================== *)
(** * Dates: the template and the fate of unparsed dates                *)
(* ================================================================== *)

Section DateFacts.

Import Dates DateTemplate.
Local Open Scope Z_scope.

















End DateFacts.

Section DateTheorems.

(** The range of dates the timestamp column can hold is arbitrary. *)
Context {R : Dates.TimestampRange}.




End DateTheorems.

Section DateExamples.


(** How some strings are read, with a nanosecond column and with a column
    that holds every date: optional leading zeros, a space for the zero
    of the day, digits of other scripts in the year, text left over,
    dates outside the calendar and outside the nanosecond range. *)
Example date_reading_examples :
  let ns s := Dates.to_datetime (R := Dates.ns_range) (Some s) in
  let any s := Dates.to_datetime (R := Dates.any_range) (Some s) in
  ns (u "2023.2.6") = Some (Dates.mkDate 2023 2 6)
  /\ ns (u "2023.02. 6") = Some (Dates.mkDate 2023 2 6)
  /\ ns [1634; 1632; 1634; 1635; 46; 48; 50; 46; 48; 54]%N
     = Some (Dates.mkDate 2023 2 6)
  /\ ns (u "2023.02.06 ") = None
  /\ ns (u "2023.02.06T00") = None
  /\ ns (u "2023-02-06") = None
  /\ ns (u "2023.13.01") = None
  /\ ns (u "2023.02.30") = None
  /\ ns (u "2024.02.29") = Some (Dates.mkDate 2024 2 29)
  /\ ns (u "1500.06.15") = None
  /\ any (u "1500.06.15") = Some (Dates.mkDate 1500 6 15)
  /\ any (u "0000.01.01") = None.
Proof. repeat split; reflexivity. Qed.


End DateExamples.

(* ================================================================== *)
(** * The sidebar filters                                               *)
(* ================================================================== *)

Section FilterTheorems.

Variable df : frame cell.
Variable year_range : Z * Z.
Variable depth_range : float * float.

(** C5. With the year and depth ranges fixed, the magnitude range
    [3.5, 9.0] with "large only" ticked selects the same rows as the
    magnitude range [5.0, 9.0] with the box clear. *)
Theorem large_only_is_range_from_5 :
  df_filtered df year_range (3.5, 9)%float depth_range true
  = df_filtered df year_range (5, 9)%float depth_range false.
Proof.
  unfold df_filtered. rewrite filter_filter. apply filter_ext.
  intros r. unfold range_mask, large_mask. simpl.
  destruct (year_ge (Year r) (fst year_range)); simpl; [|reflexivity].
  destruct (year_le (Year r) (snd year_range)); simpl; [|reflexivity].
  destruct (PrimFloat.leb 5 (xM r)) eqn:E5.
  - rewrite (leb_5_leb_3_5 _ E5). simpl. now rewrite andb_true_r.
  - simpl. now rewrite andb_false_r.
Qed.

Variable mag_range : float * float.
Variable show_large_only : bool.

(** C6. Filtering a filtered view again with the same four constraints
    changes nothing. *)
Theorem df_filtered_idempotent :
  df_filtered (df_filtered df year_range mag_range depth_range show_large_only)
              year_range mag_range depth_range show_large_only
  = df_filtered df year_range mag_range depth_range show_large_only.
Proof.
  unfold df_filtered. destruct show_large_only.
  - rewrite (filter_all (range_mask year_range mag_range depth_range)
               (filter large_mask _)).
    + apply filter_idem.
    + intros r Hr. apply filter_In in Hr as [Hr _]. now apply filter_In in Hr.
  - apply filter_idem.
Qed.

(** C10. A row whose year is missing is in no filtered view, whatever
    the ranges and the flag. *)
Theorem null_year_never_in_view (r : row cell) :
  Year r = None ->
  ~ In r (df_filtered df year_range mag_range depth_range show_large_only).
Proof.
  intros Hy Hin.
  assert (Hmask : range_mask year_range mag_range depth_range r = true).
  { unfold df_filtered in Hin. destruct show_large_only.
    - apply filter_In in Hin as [Hin _]. now apply filter_In in Hin.
    - now apply filter_In in Hin. }
  unfold range_mask in Hmask. rewrite Hy in Hmask. discriminate.
Qed.

End FilterTheorems.

Section FilterExamples.

(** The undated row of the sample dataset is cleaned but never shown. *)
Lemma null_year_never_in_view_witness :
  In Samples.doganyol_clean Samples.df
  /\ ~ In Samples.doganyol_clean
       (df_filtered Samples.df (1900, 2024)%Z (3.5, 9)%float (0, 100)%float false).
Proof.
  split; [right; left; reflexivity|].
  apply null_year_never_in_view. reflexivity.
Defined.

End FilterExamples.

(* ================================================================== *)
(** * Facts about grouping and [nlargest]                               *)
(* ================================================================== *)

Section GroupFacts.

Lemma str_eqb_eq (a b : str) : str_eqb a b = true <-> a = b.
Proof.
  revert b. induction a as [|x a IH]; intros [|y b]; simpl;
    try (split; [discriminate | discriminate]); [tauto|].
  rewrite andb_true_iff, N.eqb_eq, IH.
  split; [intros [-> ->]; reflexivity | intros E; injection E; auto].
Qed.

Lemma insert_key_In (k x : str) (ks : list str) :
  In x (insert_key k ks) <-> x = k \/ In x ks.
Proof.
  induction ks as [|k' ks IH]; simpl; [intuition|].
  destruct (str_eqb k k') eqn:E.
  - apply str_eqb_eq in E. subst k'. simpl. intuition.
  - destruct (str_ltb k k'); simpl; [intuition|].
    rewrite IH. intuition.
Qed.

(** The group keys are exactly the labels that occur. *)
Lemma group_keys_In (df : frame cell) (k : str) :
  In k (group_keys df) <-> exists r, In r df /\ Region r = Some k.
Proof.
  induction df as [|r df IH]; simpl.
  - split; [intros [] | intros (r & [] & _)].
  - unfold add_key. destruct (Region r) as [k'|] eqn:E.
    + rewrite insert_key_In, IH. split.
      * intros [->|(r' & Hr' & Er')]; [exists r | exists r']; auto.
      * intros (r' & [<-|Hr'] & Er'); [left; congruence | right; exists r'; auto].
    + rewrite IH. split.
      * intros (r' & Hr' & Er'); exists r'; auto.
      * intros (r' & [<-|Hr'] & Er'); [congruence | exists r'; auto].
Qed.

Lemma group_rows_In (df : frame cell) (k : str) (r : row cell) :
  In r (group_rows df k) <-> In r df /\ Region r = Some k.
Proof.
  unfold group_rows. rewrite filter_In. unfold region_is.
  destruct (Region r) as [k'|].
  - rewrite str_eqb_eq. split; intros [H E]; split; congruence.
  - split; intros [_ E]; discriminate.
Qed.

(** Where no magnitude is missing, ["count"] is the number of rows. *)
Lemma agg_count_all (rows : frame cell) :
  (forall r, In r rows -> is_nan (xM r) = false) ->
  agg_count (map (@xM cell) rows) = length rows.
Proof.
  intros H. unfold agg_count. rewrite filter_all, length_map; [reflexivity|].
  intros x Hx. apply in_map_iff in Hx as (r & <- & Hr).
  unfold notna. now rewrite (H r Hr).
Qed.

Lemma df_filtered_notna (df : frame cell) (yr : Z * Z) (mr dr : float * float)
      (flag : bool) (r : row cell) :
  In r (df_filtered df yr mr dr flag) -> is_nan (xM r) = false.
Proof.
  intros Hin.
  assert (Hmask : range_mask yr mr dr r = true).
  { unfold df_filtered in Hin. destruct flag.
    - apply filter_In in Hin as [Hin _]. now apply filter_In in Hin.
    - now apply filter_In in Hin. }
  unfold range_mask in Hmask. rewrite !andb_true_iff in Hmask.
  destruct Hmask as [[[[_ Hlo] _] _] _]. exact (leb_notna _ _ Hlo).
Qed.

End GroupFacts.

Section SortFacts.

Lemma insert_desc_perm (s : region_stat) (l : list region_stat) :
  Permutation (insert_desc s l) (s :: l).
Proof.
  induction l as [|t l IH]; simpl; [reflexivity|].
  destruct (Count t <=? Count s)%nat; [reflexivity|].
  rewrite IH. apply perm_swap.
Qed.

Lemma sort_desc_perm (l : list region_stat) : Permutation (sort_desc l) l.
Proof.
  induction l as [|s l IH]; simpl; [reflexivity|].
  rewrite insert_desc_perm. now constructor.
Qed.

Lemma insert_desc_sorted (s : region_stat) (l : list region_stat) :
  StronglySorted ge_count l -> StronglySorted ge_count (insert_desc s l).
Proof.
  induction 1 as [|t l Hl IH Ht]; simpl.
  - constructor; constructor.
  - destruct (Nat.leb_spec (Count t) (Count s)) as [Hle|Hgt].
    + constructor; [now constructor|].
      constructor; [exact Hle|].
      eapply Forall_impl; [|exact Ht]. unfold ge_count. intros; lia.
    + constructor; [exact IH|].
      apply (Permutation_Forall (Permutation_sym (insert_desc_perm s l))).
      constructor; [unfold ge_count; lia | exact Ht].
Qed.

Lemma sort_desc_sorted (l : list region_stat) : StronglySorted ge_count (sort_desc l).
Proof.
  induction l as [|s l IH]; simpl; [constructor | now apply insert_desc_sorted].
Qed.

(** In a sorted list every element of a prefix dominates the rest. *)
Lemma sorted_app_dominates (l1 l2 : list region_stat) :
  StronglySorted ge_count (l1 ++ l2) ->
  forall a b, In a l1 -> In b l2 -> ge_count a b.
Proof.
  induction l1 as [|x l1 IH]; simpl; intros H a b Ha Hb; [destruct Ha|].
  apply StronglySorted_inv in H as [Hs Hx].
  destruct Ha as [<-|Ha].
  - rewrite Forall_forall in Hx. apply Hx, in_or_app. now right.
  - exact (IH Hs a b Ha Hb).
Qed.

(** The stable sort is one of the sorts the library may use. *)
Definition stable_sort_values : SortValues :=
  {| sort_values_desc := sort_desc;
     sort_values_perm := sort_desc_perm;
     sort_values_sorted := sort_desc_sorted |}.

Context {S : SortValues}.

(** [nlargest] is a prefix of some arrangement of the rows by decreasing
    [Count]. *)
Lemma nlargest_prefix (n : nat) (l : list region_stat) :
  exists sorted,
    nlargest n l = firstn n sorted
    /\ Permutation sorted l /\ StronglySorted ge_count sorted.
Proof.
  unfold nlargest. destruct (n <? length l)%nat.
  - exists (sort_desc l). split; [reflexivity|].
    split; [apply sort_desc_perm | apply sort_desc_sorted].
  - exists (sort_values_desc l). split; [reflexivity|].
    split; [apply sort_values_perm | apply sort_values_sorted].
Qed.

(** [nlargest] splits the rows in a kept part and a remainder that it
    dominates. *)
Lemma nlargest_split (n : nat) (l : list region_stat) :
  exists dropped,
    Permutation (nlargest n l ++ dropped) l
    /\ forall s t, In s (nlargest n l) -> In t dropped ->
                   (Count t <= Count s)%nat.
Proof.
  destruct (nlargest_prefix n l) as (sorted & -> & Hperm & Hsorted).
  exists (skipn n sorted). split.
  - rewrite firstn_skipn. exact Hperm.
  - intros s t Hs Ht.
    apply (sorted_app_dominates (firstn n sorted) (skipn n sorted));
      [|exact Hs | exact Ht].
    rewrite firstn_skipn. exact Hsorted.
Qed.

Lemma nlargest_length (n : nat) (l : list region_stat) :
  length (nlargest n l) = Nat.min n (length l).
Proof.
  destruct (nlargest_prefix n l) as (sorted & -> & Hperm & _).
  now rewrite length_firstn, (Permutation_length Hperm).
Qed.

Lemma nlargest_incl (n : nat) (l : list region_stat) (s : region_stat) :
  In s (nlargest n l) -> In s l.
Proof.
  destruct (nlargest_prefix n l) as (sorted & -> & Hperm & _).
  intros H. apply (Permutation_in s Hperm).
  rewrite <- (firstn_skipn n sorted). apply in_or_app. now left.
Qed.

Lemma nlargest_all (n : nat) (l : list region_stat) (s : region_stat) :
  (length l <= n)%nat -> In s l -> In s (nlargest n l).
Proof.
  destruct (nlargest_prefix n l) as (sorted & -> & Hperm & _).
  intros Hlen H. rewrite firstn_all2.
  - apply (Permutation_in s (Permutation_sym Hperm) H).
  - now rewrite (Permutation_length Hperm).
Qed.

Lemma nlargest_sum_le (n : nat) (l : list region_stat) :
  (list_sum (map Count (nlargest n l)) <= list_sum (map Count l))%nat.
Proof.
  destruct (nlargest_prefix n l) as (sorted & -> & Hperm & _).
  assert (E : list_sum (map Count l) = list_sum (map Count sorted)).
  { clear n. induction Hperm; simpl; lia. }
  rewrite E. rewrite <- (firstn_skipn n sorted) at 2.
  rewrite map_app, list_sum_app. lia.
Qed.

End SortFacts.

(* ================================================================== *)
(** * The treemap statistics                                            *)
(* ================================================================== *)

Section AggregatorTheorems.

Variable mean : list float -> float.

(** The library's sort of equal counts is arbitrary. *)
Context {S : SortValues}.

Lemma df_region_stats_In (view : frame cell) (s : region_stat) :
  In s (df_region_stats mean view) <->
  (exists k, In k (group_keys view) /\ s = agg mean view k) /\ (10 <= Count s)%nat.
Proof.
  unfold df_region_stats, grouped. rewrite filter_In, in_map_iff, Nat.leb_le.
  split; intros [(k & H1 & H2) H]; (split; [exists k|exact H]); auto.
Qed.

(** C7. In a filtered view, a region with fewer than ten rows (nine, for
    one) has no entry in what the treemap receives; a region with ten
    rows or more passes the threshold, with its row count as [Count],
    and reaches the treemap whenever no more than 25 regions pass. *)
Theorem region_threshold_is_ten
        (df : frame cell) (year_range : Z * Z) (mag_range depth_range : float * float)
        (show_large_only : bool) (k : str) :
  let view := df_filtered df year_range mag_range depth_range show_large_only in
  let n := length (group_rows view k) in
  ((n < 10)%nat ->
     forall s, In s (treemap_rows mean view) -> st_Region s <> k)
  /\ ((10 <= n)%nat ->
        exists s, In s (df_region_stats mean view)
                  /\ st_Region s = k /\ Count s = n
                  /\ ((length (df_region_stats mean view) <= 25)%nat ->
                      In s (treemap_rows mean view))).
Proof.
  intros view n.
  assert (Hcount : Count (agg mean view k) = n).
  { simpl. apply agg_count_all. intros r Hr.
    apply group_rows_In in Hr as [Hr _].
    exact (df_filtered_notna _ _ _ _ _ _ Hr). }
  split.
  - intros Hn s Hs Hk.
    apply nlargest_incl, df_region_stats_In in Hs as [(k' & _ & ->) Hten].
    simpl in Hk. subst k'. lia.
  - intros Hn.
    assert (Hkey : In k (group_keys view)).
    { apply group_keys_In.
      destruct (group_rows view k) as [|r rows] eqn:E; [simpl in n; lia|].
      exists r. apply group_rows_In. rewrite E. now left. }
    assert (Hin : In (agg mean view k) (df_region_stats mean view)).
    { apply df_region_stats_In. split; [now exists k | lia]. }
    exists (agg mean view k). repeat split; try assumption.
    intros Hlen. now apply nlargest_all.
Qed.

(** C8. The treemap receives at most 25 groups: the 25 groups with the
    largest [Count] among those that pass the threshold, or all of them
    when there are fewer. *)
Theorem treemap_at_most_25 (view : frame cell) :
  (length (treemap_rows mean view) <= 25)%nat
  /\ length (treemap_rows mean view) = Nat.min 25 (length (df_region_stats mean view))
  /\ exists dropped,
       Permutation (treemap_rows mean view ++ dropped) (df_region_stats mean view)
       /\ forall s t, In s (treemap_rows mean view) -> In t dropped ->
                      (Count t <= Count s)%nat.
Proof.
  unfold treemap_rows.
  assert (Hlen : length (nlargest 25 (df_region_stats mean view))
                 = Nat.min 25 (length (df_region_stats mean view)))
    by apply nlargest_length.
  split; [rewrite Hlen; apply Nat.le_min_l|]. split; [exact Hlen|].
  apply nlargest_split.
Qed.

End AggregatorTheorems.

Section AggregatorExamples.

(** Ten events in Sivrice, nine in Puturge: the treemap frame holds the
    first region and not the second. *)
Lemma region_threshold_is_ten_witness :
  (exists s,
     In s (treemap_rows (S := stable_sort_values) Samples.first_or_nan
             (df_filtered Samples.ten_and_nine
                          (2000, 2024)%Z (3.5, 9)%float (0, 100)%float false))
     /\ st_Region s = u "Sivrice" /\ Count s = 10%nat)
  /\ (forall s,
        In s (treemap_rows (S := stable_sort_values) Samples.first_or_nan
                (df_filtered Samples.ten_and_nine
                             (2000, 2024)%Z (3.5, 9)%float (0, 100)%float false))
        -> st_Region s <> u "Puturge").
Proof.
  split.
  - destruct (region_threshold_is_ten (S := stable_sort_values) Samples.first_or_nan Samples.ten_and_nine
                (2000, 2024)%Z (3.5, 9)%float (0, 100)%float false (u "Sivrice"))
      as [_ H].
    destruct H as (s & Hs & Hk & Hc & Htop).
    + apply Nat.leb_le. reflexivity.
    + exists s. split; [|split; [exact Hk | exact Hc]].
      apply Htop. apply Nat.leb_le. reflexivity.
  - destruct (region_threshold_is_ten (S := stable_sort_values) Samples.first_or_nan Samples.ten_and_nine
                (2000, 2024)%Z (3.5, 9)%float (0, 100)%float false (u "Puturge"))
      as [H _].
    apply H. apply Nat.ltb_lt. reflexivity.
Defined.

End AggregatorExamples.

(* ================================================================== *)
(** * More about the string operations                                  *)
(* ================================================================== *)

Section StringConverses.

Import RegionRules.

(** What [lstrip] removes is whitespace, and what it leaves does not
    start with whitespace. *)
Lemma lstrip_split (s : str) :
  exists l, s = l ++ lstrip s /\ blank l
            /\ forall c t, lstrip s = c :: t -> isspace c = false.
Proof.
  induction s as [|c s (l & E & Hl & Hhd)]; simpl.
  - exists []. repeat split; [constructor | discriminate].
  - destruct (isspace c) eqn:Hc.
    + exists (c :: l). split; [simpl; now rewrite <- E|].
      split; [now constructor | exact Hhd].
    + exists []. split; [reflexivity|]. split; [constructor|].
      intros c' t E'. injection E' as <- _. exact Hc.
Qed.

Lemma rstrip_split (s : str) :
  exists r, s = rstrip s ++ r /\ blank r
            /\ forall c t, rstrip s = t ++ [c] -> isspace c = false.
Proof.
  destruct (lstrip_split (rev s)) as (l & E & Hl & Hhd).
  exists (rev l). unfold rstrip. split; [|split].
  - rewrite <- rev_app_distr, <- E. symmetry. apply rev_involutive.
  - now apply Forall_rev.
  - intros c t E'. apply (Hhd c (rev t)).
    rewrite <- (rev_involutive (lstrip (rev s))), E', rev_app_distr. reflexivity.
Qed.

(** [strip] computes the trimmed string. *)
Lemma strip_is_trimmed (s : str) : trimmed s (strip s).
Proof.
  destruct (lstrip_split s) as (l & El & Hl & Hhd).
  destruct (rstrip_split (lstrip s)) as (r & Er & Hr & Hlast).
  exists l, r. unfold strip. split; [|split; [exact Hl | split; [exact Hr|]]].
  - now rewrite <- Er.
  - split; [|exact Hlast].
    intros c t E. apply (Hhd c (t ++ r)). rewrite Er, E. reflexivity.
Qed.

Lemma tight_blank_nil (t : str) : tight t -> blank t -> t = [].
Proof.
  intros [Hhd _] Hb. destruct t as [|c t]; [reflexivity|].
  inversion Hb as [|? ? Hc _]. rewrite (Hhd c t eq_refl) in Hc. discriminate.
Qed.

(** What [split_from] returns, in terms of the run [cur] being read. *)
Lemma split_from_inv (s cur : str) :
  solid cur ->
  match split_from cur s with
  | [] => cur = [] /\ blank s
  | tok :: _ =>
      (cur = [] /\ first_token s tok)
      \/ (cur <> [] /\ exists p rest,
            s = p ++ rest /\ solid p /\ tok = rev cur ++ p
            /\ (rest = [] \/ exists c rest', rest = c :: rest' /\ isspace c = true))
  end.
Proof.
  revert cur. induction s as [|c s IH]; intros cur Hcur.
  - destruct cur as [|x cur]; [split; [reflexivity | constructor]|].
    right. split; [discriminate|]. exists [], [].
    split; [reflexivity|]. split; [constructor|].
    split; [symmetry; apply app_nil_r | now left].
  - cbn [split_from]. destruct (isspace c) eqn:Hc.
    + destruct cur as [|x cur].
      * specialize (IH [] (Forall_nil _)). cbn [flush].
        destruct (split_from [] s) as [|tok more].
        -- destruct IH as [_ Hb]. split; [reflexivity | now constructor].
        -- destruct IH as [[_ (l & rest & -> & Hl & Hne & Hs & Hrest)] | [[] _]];
             [|reflexivity].
           left. split; [reflexivity|]. exists (c :: l), rest.
           split; [reflexivity|]. split; [now constructor|].
           split; [exact Hne|]. split; [exact Hs | exact Hrest].
      * right. split; [discriminate|]. exists [], (c :: s).
        split; [reflexivity|]. split; [constructor|].
        split; [symmetry; apply app_nil_r|]. right. now exists c, s.
    + assert (Hcur' : solid (c :: cur)) by now constructor.
      specialize (IH (c :: cur) Hcur').
      destruct (split_from (c :: cur) s) as [|tok more];
        [destruct IH; discriminate|].
      destruct IH as [[E _] | [_ (p & rest & -> & Hp & -> & Hrest)]]; [discriminate|].
      assert (Hcp : solid (c :: p)) by now constructor.
      destruct cur as [|x cur].
      * left. split; [reflexivity|]. exists [], rest.
        split; [reflexivity|]. split; [constructor|].
        split; [discriminate|]. split; [exact Hcp | exact Hrest].
      * right. split; [discriminate|]. exists (c :: p), rest.
        split; [reflexivity|]. split; [exact Hcp|].
        split; [|exact Hrest].
        change (rev (c :: x :: cur)) with (rev (x :: cur) ++ [c]).
        now rewrite <- app_assoc.
Qed.

Lemma split_nil_blank (s : str) : split s = [] -> blank s.
Proof.
  intros E. pose proof (split_from_inv s [] (Forall_nil _)) as H.
  unfold split in E. rewrite E in H. tauto.
Qed.

Lemma split_head_first_token (s tok : str) (more : list str) :
  split s = tok :: more -> first_token s tok.
Proof.
  intros E. pose proof (split_from_inv s [] (Forall_nil _)) as H.
  unfold split in E. rewrite E in H.
  destruct H as [[_ H] | [[] _]]; [exact H | reflexivity].
Qed.

(** The text after the last occurrence of a character. *)
Lemma last_occurrence (x : char) (s : str) :
  In x s -> exists pre post, s = pre ++ x :: post /\ ~ In x post.
Proof.
  induction s as [|c s IH]; simpl; [intros []|]. intros H.
  destruct (in_dec N.eq_dec x s) as [Hin|Hout].
  - destruct (IH Hin) as (pre & post & -> & Hpost).
    exists (c :: pre), post. split; [reflexivity | exact Hpost].
  - destruct H as [->|H]; [|contradiction].
    exists [], s. split; [reflexivity | exact Hout].
Qed.

End StringConverses.

(* ================================================================== *)
(** * Region extraction: what it returns and when it fails              *)
(* ================================================================== *)

Section RegionCompleteness.

Import RegionRules.

Lemma search_group_finds (s : str) :
  has_paren_group s -> Re.search_group s <> None.
Proof.
  intros (pre & body & post & -> & Hne & Hno).
  induction pre as [|c pre IH]; simpl.
  - rewrite (until_close_app body post Hno).
    destruct body; [now destruct Hne | discriminate].
  - destruct (c =? LPAREN)%N; [|exact IH].
    destruct (Re.until_close _) as [[|b0 b]|]; try exact IH. discriminate.
Qed.

Lemma search_group_None (s : str) :
  Re.search_group s = None -> ~ has_paren_group s.
Proof. intros E H. exact (search_group_finds s H E). Qed.

Lemma blank_app (l r : str) : blank l -> blank r -> blank (l ++ r).
Proof. intros Hl Hr. apply Forall_app. now split. Qed.

Lemma first_token_tight (s tok : str) :
  first_token s tok -> tok <> [] /\ solid tok /\ tight tok.
Proof.
  intros (l & rest & _ & _ & Hne & Hs & _). split; [exact Hne|].
  split; [exact Hs|]. unfold solid in Hs. rewrite Forall_forall in Hs.
  split; intros c t ->; apply Hs; [now left | apply in_or_app; right; now left].
Qed.

(** Every label the extractor returns is the one a rule designates, the
    empty string apart, which gives ["Unknown"].  A label never starts or
    ends with whitespace, and a label that does not come from a
    parenthetical group is one non-empty token without any whitespace. *)
Theorem extract_region_label_sound (s label : str) :
  extract_region (Some s) = Ok label ->
  (region_rule s label \/ (s = [] /\ label = Unknown))
  /\ tight label
  /\ (~ has_paren_group s -> label <> [] /\ solid label).
Proof.
  unfold extract_region. destruct (Re.search_group s) as [g|] eqn:Eg.
  - intros E. injection E as <-.
    pose proof (strip_is_trimmed g) as Htrim.
    split; [left; apply rule_parenthesis with (body := g);
            [now apply search_group_leftmost | exact Htrim]|].
    split; [now destruct Htrim as (_ & _ & _ & _ & _ & Ht)|].
    intros Hnone. destruct Hnone.
    destruct (search_group_leftmost s g Eg) as (pre & post & Hg & _).
    now exists pre, g, post.
  - pose proof (search_group_None s Eg) as Hnone. cbv zeta.
    destruct (in_dec N.eq_dec HYPHEN s) as [Hin|Hout].
    + destruct (last_occurrence HYPHEN s Hin) as (pre & seg & -> & Hseg).
      destruct (split_on_last HYPHEN pre seg Hseg) as [Hlen Hlast].
      rewrite Hlen, Hlast. simpl bind.
      destruct (split (strip seg)) as [|tok more] eqn:Es; simpl; [discriminate|].
      intros E. injection E as <-.
      pose proof (split_head_first_token _ _ _ Es) as Htok.
      destruct (first_token_tight _ _ Htok) as (Hne & Hsolid & Htight).
      split; [left; apply rule_hyphen with (seg := seg) (seg' := strip seg);
              [exact Hnone | now exists pre | apply strip_is_trimmed | exact Htok]|].
      split; [exact Htight | intros _; now split].
    + rewrite (split_on_absent HYPHEN s Hout). simpl.
      destruct s as [|c s]; simpl.
      * intros E. injection E as <-.
        split; [right; now split|]. split; [|intros _; split; [discriminate|]].
        -- split; intros c t E; [injection E as <- _; reflexivity|].
           assert (E' : rev Unknown = rev (t ++ [c])) by now rewrite E.
           rewrite rev_app_distr in E'. injection E' as <- _. reflexivity.
        -- repeat constructor.
      * destruct (split (c :: s)) as [|tok more] eqn:Es; simpl; [discriminate|].
        intros E. injection E as <-.
        pose proof (split_head_first_token _ _ _ Es) as Htok.
        destruct (first_token_tight _ _ Htok) as (Hne & Hsolid & Htight).
        split; [left; now apply rule_first_token|].
        split; [exact Htight | intros _; now split].
Qed.

(** The label of a location with a hyphen and two tokens after it. *)
Lemma extract_region_label_sound_witness :
  region_rule (u "Elazig-Sivrice Merkez") (u "Sivrice")
  /\ solid (u "Sivrice").
Proof.
  assert (E : extract_region (Some (u "Elazig-Sivrice Merkez")) = Ok (u "Sivrice"))
    by reflexivity.
  destruct (extract_region_label_sound _ _ E) as ([H|[H _]] & _ & Hsolid).
  - split; [exact H|]. apply Hsolid. apply search_group_None. reflexivity.
  - discriminate H.
Defined.

(** The extractor raises [IndexError] exactly on the degenerate strings:
    no parenthetical group and only whitespace after the last hyphen, or,
    without a hyphen, a non-empty string of whitespace only. *)
Theorem extract_region_raises_iff (s : str) :
  extract_region (Some s) = Raise IndexError <-> degenerate s.
Proof.
  unfold extract_region, degenerate. split.
  - destruct (Re.search_group s) as [g|] eqn:Eg; [discriminate|].
    pose proof (search_group_None s Eg) as Hnone. cbv zeta.
    destruct (in_dec N.eq_dec HYPHEN s) as [Hin|Hout].
    + destruct (last_occurrence HYPHEN s Hin) as (pre & seg & -> & Hseg).
      destruct (split_on_last HYPHEN pre seg Hseg) as [Hlen Hlast].
      rewrite Hlen, Hlast. simpl bind.
      destruct (split (strip seg)) as [|tok more] eqn:Es; simpl; [|discriminate].
      intros _. split; [exact Hnone|]. left. exists pre, seg. split; [reflexivity|].
      destruct (strip_is_trimmed seg) as (l & r & E & Hl & Hr & Ht).
      rewrite (tight_blank_nil _ Ht (split_nil_blank _ Es)) in E.
      rewrite E. now apply blank_app.
    + rewrite (split_on_absent HYPHEN s Hout). simpl.
      destruct s as [|c s]; simpl; [discriminate|].
      destruct (split (c :: s)) as [|tok more] eqn:Es; simpl; [|discriminate].
      intros _. split; [exact Hnone|]. right.
      split; [discriminate | exact (split_nil_blank _ Es)].
  - intros [Hnone [(pre & seg & -> & Hseg) | [Hne Hs]]];
      rewrite (search_group_none _ Hnone); cbv zeta.
    + destruct (split_on_last HYPHEN pre seg (blank_absent HYPHEN seg eq_refl Hseg))
        as [Hlen Hlast].
      rewrite Hlen, Hlast. simpl bind. rewrite (strip_blank seg Hseg). reflexivity.
    + rewrite (split_on_absent HYPHEN s (blank_absent HYPHEN s eq_refl Hs)).
      simpl. rewrite (split_blank s Hs).
      destruct s; [now destruct Hne | reflexivity].
Qed.

End RegionCompleteness.

(* ================================================================== *)
(** * The order of float cells                                          *)
(* ================================================================== *)

Section FloatOrder.

Ltac sf_cases :=
  change (Pos.compare_cont Eq) with Pos.compare;
  repeat match goal with
         | |- context [Z.compare ?x ?y] => destruct (Z.compare_spec x y)
         | |- context [Pos.compare ?x ?y] => destruct (Pos.compare_spec x y)
         end;
  simpl; try discriminate; try reflexivity; intros; exfalso; subst; lia.

Lemma SFleb_trans (a b c : spec_float) :
  SFleb a b = true -> SFleb b c = true -> SFleb a c = true.
Proof.
  unfold SFleb, SFcompare.
  destruct a as [ [|] | [|] | | [|] ma ea], b as [ [|] | [|] | | [|] mb eb],
           c as [ [|] | [|] | | [|] mc ec];
    try discriminate; try reflexivity; sf_cases.
Qed.

Lemma SFleb_ltb_trans (a b c : spec_float) :
  SFleb a b = true -> SFltb b c = true -> SFltb a c = true.
Proof.
  unfold SFleb, SFltb, SFcompare.
  destruct a as [ [|] | [|] | | [|] ma ea], b as [ [|] | [|] | | [|] mb eb],
           c as [ [|] | [|] | | [|] mc ec];
    try discriminate; try reflexivity; sf_cases.
Qed.

Lemma SFltb_irrefl (a : spec_float) : SFltb a a = false.
Proof.
  unfold SFltb, SFcompare.
  destruct a as [ [|] | [|] | | [|] ma ea]; try reflexivity;
    rewrite Z.compare_refl; change (Pos.compare_cont Eq) with Pos.compare;
    rewrite Pos.compare_refl; reflexivity.
Qed.

Lemma SFleb_total (a b : spec_float) :
  SFeqb a a = true -> SFeqb b b = true -> SFltb a b = false -> SFleb b a = true.
Proof.
  unfold SFleb, SFltb, SFeqb, SFcompare.
  destruct a as [ [|] | [|] | | [|] ma ea], b as [ [|] | [|] | | [|] mb eb];
    try discriminate; try reflexivity; sf_cases.
Qed.

Lemma SFleb_refl (a : spec_float) : SFeqb a a = true -> SFleb a a = true.
Proof.
  unfold SFleb, SFeqb. destruct (SFcompare a a) as [[| |]|]; congruence.
Qed.

(** [<=] on float cells is transitive. *)
Lemma leb_trans (x y z : float) :
  PrimFloat.leb x y = true -> PrimFloat.leb y z = true -> PrimFloat.leb x z = true.
Proof. rewrite !leb_spec. apply SFleb_trans. Qed.

(** Nothing is both at least [y] and at most some [x] below [y]. *)
Lemma leb_ltb_absurd (x y z : float) :
  PrimFloat.leb y z = true -> PrimFloat.leb z x = true -> PrimFloat.ltb x y = true -> False.
Proof.
  rewrite !leb_spec, ltb_spec. intros Hyz Hzx Hxy.
  pose proof (SFleb_ltb_trans _ _ _ (SFleb_trans _ _ _ Hyz Hzx) Hxy) as H.
  rewrite SFltb_irrefl in H. discriminate.
Qed.

(** Of two cells that are not NaN, the one that is not below the other
    is at least the other. *)
Lemma leb_total (x y : float) :
  is_nan x = false -> is_nan y = false ->
  PrimFloat.ltb x y = false -> PrimFloat.leb y x = true.
Proof.
  unfold is_nan. rewrite !eqb_spec, ltb_spec, leb_spec, !negb_false_iff.
  apply SFleb_total.
Qed.

Lemma leb_refl (x : float) : is_nan x = false -> PrimFloat.leb x x = true.
Proof.
  unfold is_nan. rewrite eqb_spec, leb_spec, negb_false_iff. apply SFleb_refl.
Qed.

Lemma between_notna (lo hi x : float) : between lo hi x = true -> notna x = true.
Proof.
  unfold between, notna. intros H. apply andb_prop in H as [H _].
  now rewrite (leb_notna lo x H).
Qed.

End FloatOrder.

(* ================================================================== *)
(** * The pipeline: which rows it keeps and when it fails               *)
(* ================================================================== *)

Section PipelineMore.

(** The range of dates the timestamp column can hold is arbitrary. *)
Context {R : Dates.TimestampRange}.

Lemma filter_map_swap {A B : Type} (f : B -> bool) (g : A -> B) (l : list A) :
  filter f (map g l) = map g (filter (fun x => f (g x)) l).
Proof.
  induction l as [|a l IH]; simpl; [reflexivity|].
  destruct (f (g a)); simpl; now rewrite IH.
Qed.

Lemma Forall2_map_l {A B C : Type} (Q : B -> C -> Prop) (g : A -> B)
      (l : list A) (l' : list C) :
  Forall2 Q (map g l) l' -> Forall2 (fun x y => Q (g x) y) l l'.
Proof.
  revert l'. induction l as [|a l IH]; simpl; intros l' H; inversion H; subst;
    constructor; auto.
Qed.

(** The coordinate mask on a normalized row, without its NaN tests. *)
Lemma in_bounds_between (r : row unit) :
  in_bounds r = between 35 43 (Latitude r) && between 25 45 (Longitude r).
Proof.
  unfold in_bounds.
  destruct (between 35 43 (Latitude r)) eqn:Hlat; [|reflexivity].
  destruct (between 25 45 (Longitude r)) eqn:Hlon; [|reflexivity].
  now rewrite (between_notna _ _ _ Hlat), (between_notna _ _ _ Hlon).
Qed.

(** The three successive selections amount to the single mask [gate]. *)
Lemma kept_rows (csv : list csv_row) :
  filter mag_ok (filter depth_ok (filter in_bounds (map normalize csv)))
  = map normalize (filter gate csv).
Proof.
  rewrite !filter_filter, filter_map_swap. f_equal. apply filter_ext.
  intros r. rewrite in_bounds_between.
  unfold gate, depth_ok, mag_ok. simpl. now rewrite !andb_assoc.
Qed.

Lemma with_region_cleaned (r : csv_row) (r' : row cell) :
  with_region (normalize r) = Ok r' -> cleaned_from r r'.
Proof.
  intros H. apply with_region_Ok in H
    as (Ed & Ey & Elat & Elon & Edep & Emag & Eloc & label & El & Er).
  unfold cleaned_from. simpl in *. repeat split; try assumption.
  now exists label.
Qed.

(** The cleaned dataset lists the rows of the file that pass the gates, all
    of them and nothing else, each once and in the order of the file. *)
Theorem cleaned_dataset_is_gated_file (csv : list csv_row) (df : frame cell) :
  load_and_preprocess_data csv = Ok df ->
  Forall2 cleaned_from (filter gate csv) df
  /\ length df = length (filter gate csv)
  /\ (length df <= length csv)%nat.
Proof.
  intros H. apply load_rows in H. rewrite kept_rows in H.
  apply Forall2_map_l in H.
  assert (H2 : Forall2 cleaned_from (filter gate csv) df).
  { eapply Forall2_impl; [|exact H]. intros a b. apply with_region_cleaned. }
  split; [exact H2|].
  pose proof (Forall2_length H2) as Hlen.
  split; [now symmetry|]. rewrite <- Hlen. apply filter_length_le.
Qed.


(** The NaN tests of the coordinate mask never change its verdict: a
    coordinate inside its interval is not NaN. *)
Theorem coordinate_mask_needs_no_notna (r : csv_row) :
  in_bounds (normalize r)
  = between 35 43 (Enlem r) && between 25 45 (Boylam r).
Proof. apply in_bounds_between. Qed.

Lemma mapM_Raise {A B : Type} (f : A -> result B) (xs : list A) :
  (exists e, mapM f xs = Raise e) <-> exists x e, In x xs /\ f x = Raise e.
Proof.
  induction xs as [|x xs IH]; simpl.
  - split; [intros [e E]; discriminate | intros (x & e & [] & _)].
  - destruct (f x) as [y|e] eqn:Ex; simpl.
    + destruct (mapM f xs) as [ys|e]; simpl.
      * split; [intros [e E]; discriminate|].
        intros (x' & e & [<-|Hin] & E); [congruence|].
        destruct (proj2 IH) as [e' E']; [now exists x', e | discriminate].
      * split; [|intros _; now exists e].
        intros _. destruct (proj1 IH) as (x' & e' & Hin & E'); [now exists e|].
        exists x', e'. split; [now right | exact E'].
    + split; [|intros _; now exists e].
      intros _. exists x, e. split; [now left | exact Ex].
Qed.

(** The pipeline fails exactly when the location of some row that passes
    the gates makes [extract_region] fail; a row the gates reject cannot
    make it fail, whatever its location. *)
Theorem pipeline_fails_iff (csv : list csv_row) :
  load_and_preprocess_data csv = Raise IndexError
  <-> exists r, In r csv /\ gate r = true
                /\ extract_region (fillna Unknown (Yer r)) = Raise IndexError.
Proof.
  unfold load_and_preprocess_data. cbv zeta. rewrite kept_rows.
  split.
  - intros H.
    destruct (proj1 (mapM_Raise with_region (map normalize (filter gate csv))))
      as (a & e & Hin & E); [now exists IndexError|].
    apply in_map_iff in Hin as (r & <- & Hr). apply filter_In in Hr as [Hr Hg].
    exists r. split; [exact Hr|]. split; [exact Hg|].
    unfold with_region in E. simpl in E.
    destruct (extract_region (fillna Unknown (Yer r))) as [g|[]]; [discriminate|].
    reflexivity.
  - intros (r & Hr & Hg & E).
    destruct (proj2 (mapM_Raise with_region (map normalize (filter gate csv))))
      as [[] E'].
    + exists (normalize r), IndexError. split.
      * apply in_map, filter_In. now split.
      * unfold with_region. simpl. now rewrite E.
    + exact E'.
Qed.

End PipelineMore.

Section PipelineMoreExamples.

Lemma cleaned_dataset_is_gated_file_witness :
  Forall2 (cleaned_from (R := Dates.ns_range))
          [Samples.pazarcik; Samples.doganyol] Samples.df.
Proof.
  assert (H : load_and_preprocess_data (R := Dates.ns_range) Samples.csv = Ok Samples.df) by reflexivity.
  exact (proj1 (cleaned_dataset_is_gated_file Samples.csv Samples.df H)).
Defined.

End PipelineMoreExamples.

(* ================================================================== *)
(** * The sidebar filters: how views relate                             *)
(* ================================================================== *)

Section FilterMore.

(** The range of dates the timestamp column can hold is arbitrary. *)
Context {R : Dates.TimestampRange}.

(** A view is one selection on the dataset. *)
Lemma df_filtered_one_mask (df : frame cell) (yr : Z * Z) (mr dr : float * float)
      (flag : bool) :
  df_filtered df yr mr dr flag
  = filter (fun r => range_mask yr mr dr r && (negb flag || large_mask r)) df.
Proof.
  unfold df_filtered. destruct flag.
  - rewrite filter_filter. reflexivity.
  - apply filter_ext. intros r. simpl. now rewrite andb_true_r.
Qed.

Lemma df_filtered_In (df : frame cell) (yr : Z * Z) (mr dr : float * float)
      (flag : bool) (r : row cell) :
  In r (df_filtered df yr mr dr flag) <->
  In r df /\ range_mask yr mr dr r = true /\ (flag = true -> large_mask r = true).
Proof.
  rewrite df_filtered_one_mask, filter_In, andb_true_iff, orb_true_iff.
  destruct flag; simpl; intuition discriminate.
Qed.

Lemma range_mask_widen (yr yr' : Z * Z) (mr mr' dr dr' : float * float) (r : row cell) :
  (fst yr <= fst yr')%Z -> (snd yr' <= snd yr)%Z ->
  PrimFloat.leb (fst mr) (fst mr') = true -> PrimFloat.leb (snd mr') (snd mr) = true ->
  PrimFloat.leb (fst dr) (fst dr') = true -> PrimFloat.leb (snd dr') (snd dr) = true ->
  range_mask yr' mr' dr' r = true -> range_mask yr mr dr r = true.
Proof.
  intros Hy1 Hy2 Hm1 Hm2 Hd1 Hd2. unfold range_mask, year_ge, year_le.
  rewrite !andb_true_iff. intros [[[[[Ha Hb] Hc] Hd] He] Hf].
  repeat split.
  - destruct (Year r); [|discriminate]. apply Z.leb_le in Ha. apply Z.leb_le. lia.
  - destruct (Year r); [|discriminate]. apply Z.leb_le in Hb. apply Z.leb_le. lia.
  - exact (leb_trans _ _ _ Hm1 Hc).
  - exact (leb_trans _ _ _ Hd Hm2).
  - exact (leb_trans _ _ _ Hd1 He).
  - exact (leb_trans _ _ _ Hf Hd2).
Qed.

(** Narrowing the ranges only removes rows: the view for ranges that lie
    inside wider ones is the narrow selection of the wider view, and so
    holds no row that the wider view lacks. *)
Theorem narrower_ranges_select_from_wider_view
        (df : frame cell) (yr yr' : Z * Z) (mr mr' dr dr' : float * float) (flag : bool) :
  (fst yr <= fst yr')%Z -> (snd yr' <= snd yr)%Z ->
  PrimFloat.leb (fst mr) (fst mr') = true -> PrimFloat.leb (snd mr') (snd mr) = true ->
  PrimFloat.leb (fst dr) (fst dr') = true -> PrimFloat.leb (snd dr') (snd dr) = true ->
  df_filtered df yr' mr' dr' flag
  = df_filtered (df_filtered df yr mr dr flag) yr' mr' dr' flag
  /\ incl (df_filtered df yr' mr' dr' flag) (df_filtered df yr mr dr flag).
Proof.
  intros Hy1 Hy2 Hm1 Hm2 Hd1 Hd2.
  assert (Hw : forall r, range_mask yr' mr' dr' r = true -> range_mask yr mr dr r = true)
    by (intros r; now apply range_mask_widen).
  split.
  - rewrite !df_filtered_one_mask, filter_filter. apply filter_ext. intros r.
    destruct (range_mask yr' mr' dr' r) eqn:E.
    + rewrite (Hw r E). simpl. now destruct (negb flag || large_mask r).
    + simpl. now rewrite andb_false_r.
  - intros r Hr. apply df_filtered_In in Hr as (Hin & Hmask & Hflag).
    apply df_filtered_In. auto.
Qed.

Lemma narrower_ranges_select_from_wider_view_witness :
  incl (df_filtered Samples.ten_and_nine (2010, 2024)%Z (5, 6)%float (5, 50)%float true)
       (df_filtered Samples.ten_and_nine (2000, 2024)%Z (3.5, 9)%float (0, 100)%float true).
Proof.
  apply (narrower_ranges_select_from_wider_view
           Samples.ten_and_nine (2000, 2024)%Z (2010, 2024)%Z
           (3.5, 9)%float (5, 6)%float (0, 100)%float (5, 50)%float true);
    simpl; try lia; reflexivity.
Defined.

(** The "large only" box changes nothing once the magnitude range starts
    at 5.0 or above, and empties the view when the range ends below 5.0. *)
Theorem large_only_against_magnitude_range
        (df : frame cell) (yr : Z * Z) (mr dr : float * float) :
  (PrimFloat.leb 5 (fst mr) = true ->
     df_filtered df yr mr dr true = df_filtered df yr mr dr false)
  /\ (PrimFloat.ltb (snd mr) 5 = true -> df_filtered df yr mr dr true = []).
Proof.
  split; intros H.
  - rewrite !df_filtered_one_mask. apply filter_ext. intros r. simpl.
    destruct (range_mask yr mr dr r) eqn:E; [|reflexivity]. simpl.
    unfold range_mask in E. rewrite !andb_true_iff in E.
    destruct E as [[[[_ Hlo] _] _] _]. unfold large_mask.
    exact (leb_trans _ _ _ H Hlo).
  - rewrite df_filtered_one_mask.
    destruct (filter _ df) as [|r l] eqn:E; [reflexivity|]. exfalso.
    assert (Hr : In r (r :: l)) by now left. rewrite <- E in Hr.
    apply filter_In in Hr as [_ Hr]. simpl in Hr.
    apply andb_prop in Hr as [Hmask Hlarge].
    unfold range_mask in Hmask. rewrite !andb_true_iff in Hmask.
    destruct Hmask as [[[_ Hhi] _] _].
    exact (leb_ltb_absurd _ _ _ Hlarge Hhi H).
Qed.

Lemma large_only_against_magnitude_range_witness :
  df_filtered Samples.ten_and_nine (2000, 2024)%Z (5.5, 9)%float (0, 100)%float true
  = df_filtered Samples.ten_and_nine (2000, 2024)%Z (5.5, 9)%float (0, 100)%float false
  /\ df_filtered Samples.ten_and_nine (2000, 2024)%Z (3.5, 4.5)%float (0, 100)%float true
     = [].
Proof.
  split.
  - apply (large_only_against_magnitude_range
             Samples.ten_and_nine (2000, 2024)%Z (5.5, 9)%float (0, 100)%float).
    reflexivity.
  - apply (large_only_against_magnitude_range
             Samples.ten_and_nine (2000, 2024)%Z (3.5, 4.5)%float (0, 100)%float).
    reflexivity.
Defined.

(** Two settings of the controls applied one after the other give the
    same view in either order. *)
Theorem views_commute
        (df : frame cell) (yr yr' : Z * Z) (mr mr' dr dr' : float * float)
        (flag flag' : bool) :
  df_filtered (df_filtered df yr mr dr flag) yr' mr' dr' flag'
  = df_filtered (df_filtered df yr' mr' dr' flag') yr mr dr flag.
Proof.
  rewrite !df_filtered_one_mask, !filter_filter. apply filter_ext.
  intros r. apply andb_comm.
Qed.

(** In the cleaned dataset the year is the year of the date, so a row
    whose date could not be read is in no view, whatever the controls. *)
Theorem undated_rows_never_shown (csv : list csv_row) (df : frame cell) (r : row cell) :
  load_and_preprocess_data csv = Ok df ->
  In r df ->
  Year r = Dates.dt_year (Date r)
  /\ (Date r = None ->
      forall yr mr dr flag, ~ In r (df_filtered df yr mr dr flag)).
Proof.
  intros H Hr. apply load_rows in H.
  destruct (Forall2_In_r _ _ _ r H Hr) as (a & Ha & Hab).
  do 3 apply filter_In in Ha as [Ha _].
  apply in_map_iff in Ha as (c & <- & _).
  apply with_region_Ok in Hab as (Ed & Ey & _).
  assert (E : Year r = Dates.dt_year (Date r)) by (rewrite Ed, Ey; reflexivity).
  split; [exact E|].
  intros Hd yr mr dr flag Hin. apply df_filtered_In in Hin as (_ & Hmask & _).
  unfold range_mask in Hmask. rewrite E, Hd in Hmask. discriminate.
Qed.


End FilterMore.

Section FilterMoreExamples.

Lemma undated_rows_never_shown_witness :
  ~ In Samples.doganyol_clean
      (df_filtered Samples.df (1900, 2024)%Z (0, 10)%float (0, 700)%float false).
Proof.
  assert (H : load_and_preprocess_data (R := Dates.ns_range) Samples.csv = Ok Samples.df) by reflexivity.
  apply (undated_rows_never_shown Samples.csv Samples.df Samples.doganyol_clean H).
  - right; left; reflexivity.
  - reflexivity.
Defined.

End FilterMoreExamples.

(* ================================================================== *)
(** * The order of group keys and of the treemap rows                   *)
(* ================================================================== *)

Section KeyOrder.

Lemma str_eqb_refl (a : str) : str_eqb a a = true.
Proof. now apply str_eqb_eq. Qed.

Lemma str_ltb_irrefl (a : str) : str_ltb a a = false.
Proof.
  induction a as [|x a IH]; simpl; [reflexivity|].
  now rewrite N.ltb_irrefl, N.eqb_refl, IH.
Qed.

Lemma key_lt_irrefl (a : str) : ~ key_lt a a.
Proof. unfold key_lt. rewrite str_ltb_irrefl. discriminate. Qed.

Lemma str_ltb_trans (a b c : str) :
  str_ltb a b = true -> str_ltb b c = true -> str_ltb a c = true.
Proof.
  revert b c. induction a as [|x a IH]; intros [|y b] [|z c]; simpl;
    try discriminate; try reflexivity.
  rewrite !orb_true_iff, !andb_true_iff, !N.ltb_lt, !N.eqb_eq.
  intros [Hxy|[-> Hab]] [Hyz|[-> Hbc]].
  - left. lia.
  - now left.
  - now left.
  - right. split; [reflexivity | now apply (IH b c)].
Qed.

Lemma str_ltb_connex (a b : str) :
  str_eqb a b = false -> str_ltb a b = false -> str_ltb b a = true.
Proof.
  revert b. induction a as [|x a IH]; intros [|y b]; simpl;
    try discriminate; try reflexivity.
  intros He Hl. apply orb_false_elim in Hl as [Hxy Hl].
  apply N.ltb_ge in Hxy. destruct (N.eqb_spec x y) as [->|Hne].
  - simpl in He, Hl. rewrite N.eqb_refl, (IH b He Hl). simpl. apply orb_true_r.
  - assert (Hlt : (y <? x)%N = true) by (apply N.ltb_lt; lia).
    now rewrite Hlt.
Qed.

Lemma insert_key_sorted (k : str) (ks : list str) :
  StronglySorted key_lt ks -> StronglySorted key_lt (insert_key k ks).
Proof.
  induction 1 as [|k' ks Hs IH Hk']; simpl.
  - constructor; constructor.
  - destruct (str_eqb k k') eqn:He; [now constructor|].
    destruct (str_ltb k k') eqn:Hl.
    + constructor; [now constructor|]. constructor; [exact Hl|].
      eapply Forall_impl; [|exact Hk']. intros x Hx.
      exact (str_ltb_trans _ _ _ Hl Hx).
    + constructor; [exact IH|]. apply Forall_forall. intros x Hx.
      apply insert_key_In in Hx as [->|Hx].
      * exact (str_ltb_connex _ _ He Hl).
      * rewrite Forall_forall in Hk'. now apply Hk'.
Qed.

(** The group keys come in strictly increasing order. *)
Lemma group_keys_sorted (df : frame cell) : StronglySorted key_lt (group_keys df).
Proof.
  induction df as [|r df IH]; simpl; [constructor|].
  unfold add_key. destruct (Region r); [now apply insert_key_sorted | exact IH].
Qed.

Lemma sorted_filter {A : Type} (R : A -> A -> Prop) (f : A -> bool) (l : list A) :
  StronglySorted R l -> StronglySorted R (filter f l).
Proof.
  induction 1 as [|a l Hs IH Ha]; simpl; [constructor|].
  destruct (f a); [|exact IH]. constructor; [exact IH|].
  apply Forall_forall. intros x Hx. apply filter_In in Hx as [Hx _].
  rewrite Forall_forall in Ha. now apply Ha.
Qed.

Lemma sorted_map {A B : Type} (R : B -> B -> Prop) (g : A -> B) (l : list A) :
  StronglySorted R (map g l) -> StronglySorted (fun x y => R (g x) (g y)) l.
Proof.
  induction l as [|a l IH]; simpl; intros H; [constructor|].
  apply StronglySorted_inv in H as [Hs Ha]. constructor; [now apply IH|].
  apply Forall_forall. intros x Hx. rewrite Forall_forall in Ha.
  apply Ha. now apply in_map.
Qed.

Lemma sorted_prefix {A : Type} (R : A -> A -> Prop) (l1 l2 : list A) :
  StronglySorted R (l1 ++ l2) -> StronglySorted R l1.
Proof.
  induction l1 as [|a l1 IH]; simpl; intros H; [constructor|].
  apply StronglySorted_inv in H as [Hs Ha]. constructor; [now apply IH|].
  apply Forall_app in Ha. tauto.
Qed.

Lemma sorted_irrefl_NoDup {A : Type} (R : A -> A -> Prop) (l : list A) :
  (forall x, ~ R x x) -> StronglySorted R l -> NoDup l.
Proof.
  intros Hirr. induction 1 as [|a l Hs IH Ha]; constructor; [|exact IH].
  intros Hin. rewrite Forall_forall in Ha. exact (Hirr a (Ha a Hin)).
Qed.

Lemma insert_desc_ordered (s : region_stat) (l : list region_stat) :
  StronglySorted treemap_before l -> Forall (by_key s) l ->
  StronglySorted treemap_before (insert_desc s l).
Proof.
  induction 1 as [|t l Hs IH Ht]; simpl; intros Hkey.
  - constructor; constructor.
  - inversion Hkey as [|? ? Hst Hsl]; subst.
    destruct (Nat.leb_spec (Count t) (Count s)) as [Hle|Hgt].
    + constructor; [now constructor|]. constructor.
      * unfold treemap_before. unfold by_key, key_lt in Hst.
        destruct (Nat.eq_dec (Count t) (Count s)); [right; split; congruence | left; lia].
      * rewrite Forall_forall in Ht, Hsl |- *. intros x Hx.
        specialize (Ht x Hx). specialize (Hsl x Hx).
        unfold treemap_before in Ht |- *. unfold by_key, key_lt in Hsl.
        destruct (Nat.eq_dec (Count x) (Count s)); [right; split; congruence | left].
        destruct Ht as [Ht|[Ht _]]; lia.
    + constructor; [now apply IH|].
      apply (Permutation_Forall (Permutation_sym (insert_desc_perm s l))).
      constructor; [left; lia | exact Ht].
Qed.

Lemma sort_desc_ordered (l : list region_stat) :
  StronglySorted by_key l -> StronglySorted treemap_before (sort_desc l).
Proof.
  induction 1 as [|s l Hs IH Hk]; simpl; [constructor|].
  apply insert_desc_ordered; [exact IH|].
  exact (Permutation_Forall (Permutation_sym (sort_desc_perm l)) Hk).
Qed.

Lemma treemap_before_irrefl (s : region_stat) : ~ treemap_before s s.
Proof.
  intros [H|[_ H]]; [lia|]. rewrite str_ltb_irrefl in H. discriminate.
Qed.

End KeyOrder.

(* ================================================================== *)
(** * The treemap statistics: order, coverage and maxima                *)
(* ================================================================== *)

Section AggregatorMore.

(** The range of dates the timestamp column can hold is arbitrary. *)
Context {R : Dates.TimestampRange}.

Variable mean : list float -> float.

(** The library's sort of equal counts is arbitrary. *)
Context {S : SortValues}.

Lemma grouped_regions (view : frame cell) :
  map st_Region (grouped mean view) = group_keys view.
Proof.
  unfold grouped. rewrite map_map. simpl. apply map_id.
Qed.

Lemma grouped_by_key (view : frame cell) :
  StronglySorted by_key (grouped mean view).
Proof.
  apply (sorted_map key_lt st_Region). rewrite grouped_regions.
  apply group_keys_sorted.
Qed.

Lemma NoDup_map_of_sorted (l : list region_stat) :
  StronglySorted by_key l -> NoDup (map st_Region l).
Proof.
  induction 1 as [|a l Hs IH Ha]; simpl; constructor; [|exact IH].
  intros Hin. apply in_map_iff in Hin as (b & E & Hb).
  rewrite Forall_forall in Ha. specialize (Ha b Hb).
  unfold by_key, key_lt in Ha. rewrite E, str_ltb_irrefl in Ha. discriminate.
Qed.

(** The rows handed to the treemap are in decreasing order of [Count] and
    no region occurs twice.  When more than 25 regions pass the threshold,
    regions of equal [Count] come in increasing order of their label; with
    25 or fewer the library does not fix the order of equal counts. *)
Theorem treemap_rows_ordered (view : frame cell) :
  StronglySorted ge_count (treemap_rows mean view)
  /\ NoDup (map st_Region (treemap_rows mean view))
  /\ ((25 < length (df_region_stats mean view))%nat ->
      StronglySorted treemap_before (treemap_rows mean view)).
Proof.
  assert (Hs : StronglySorted by_key (df_region_stats mean view))
    by (apply sorted_filter, grouped_by_key).
  unfold treemap_rows. split; [|split].
  - destruct (nlargest_prefix 25 (df_region_stats mean view))
      as (sorted & -> & _ & Hsorted).
    apply sorted_prefix with (l2 := skipn 25 sorted).
    now rewrite firstn_skipn.
  - destruct (nlargest_prefix 25 (df_region_stats mean view))
      as (sorted & -> & Hperm & _).
    assert (Hnd : NoDup (map st_Region sorted)).
    { apply (Permutation_NoDup (Permutation_map st_Region (Permutation_sym Hperm))).
      now apply NoDup_map_of_sorted. }
    rewrite <- (firstn_skipn 25 sorted) in Hnd.
    rewrite map_app in Hnd. exact (NoDup_app_remove_r _ _ Hnd).
  - intros Hlen. unfold nlargest.
    apply Nat.ltb_lt in Hlen. rewrite Hlen.
    apply sorted_prefix with (l2 := skipn 25 (sort_desc (df_region_stats mean view))).
    rewrite firstn_skipn. now apply sort_desc_ordered.
Qed.

Lemma list_sum_zero {A : Type} (l : list A) : list_sum (map (fun _ => 0%nat) l) = 0%nat.
Proof. induction l; simpl; auto. Qed.

Lemma list_sum_plus {A : Type} (f g : A -> nat) (l : list A) :
  list_sum (map (fun k => (f k + g k)%nat) l)
  = (list_sum (map f l) + list_sum (map g l))%nat.
Proof. induction l as [|a l IH]; simpl; [reflexivity | rewrite IH; lia]. Qed.

Lemma one_key_matches (k0 : str) (keys : list str) :
  NoDup keys -> In k0 keys ->
  list_sum (map (fun k => if str_eqb k k0 then 1%nat else 0%nat) keys) = 1%nat.
Proof.
  induction 1 as [|k keys Hk Hnd IH]; simpl; [intros []|].
  intros [->|Hin].
  - rewrite str_eqb_refl.
    assert (E : map (fun k => if str_eqb k k0 then 1%nat else 0%nat) keys
                = map (fun _ => 0%nat) keys).
    { apply map_ext_in. intros k Hin. destruct (str_eqb k k0) eqn:E; [|reflexivity].
      apply str_eqb_eq in E. subst k. contradiction. }
    now rewrite E, list_sum_zero.
  - destruct (str_eqb k k0) eqn:E.
    + apply str_eqb_eq in E. subst k. contradiction.
    + now rewrite IH.
Qed.

(** Distinct keys that cover every row split the rows: the group sizes
    add up to the number of rows. *)
Lemma groups_partition (keys : list str) (rows : frame cell) :
  NoDup keys ->
  (forall r, In r rows -> exists k, In k keys /\ Region r = Some k) ->
  list_sum (map (fun k => length (group_rows rows k)) keys) = length rows.
Proof.
  intros Hnd. induction rows as [|r rows IH]; intros Hcov.
  - simpl. apply list_sum_zero.
  - destruct (Hcov r (or_introl eq_refl)) as (k0 & Hk0 & Er).
    assert (E : map (fun k => length (group_rows (r :: rows) k)) keys
                = map (fun k => ((if str_eqb k k0 then 1 else 0)
                                 + length (group_rows rows k))%nat) keys).
    { apply map_ext. intros k. unfold group_rows. simpl. unfold region_is at 1.
      rewrite Er. now destruct (str_eqb k k0). }
    rewrite E, list_sum_plus, (one_key_matches k0 keys Hnd Hk0), IH; [reflexivity|].
    intros r' Hr'. apply Hcov. now right.
Qed.

Lemma list_sum_filter_le (f : region_stat -> bool) (l : list region_stat) :
  (list_sum (map Count (filter f l)) <= list_sum (map Count l))%nat.
Proof.
  induction l as [|a l IH]; simpl; [lia|]. destruct (f a); simpl; lia.
Qed.

(** Every row of a view of the cleaned dataset is counted in exactly one
    region: before the threshold the [Count]s add up to the number of rows
    of the view, and what the treemap shows never adds up to more. *)
Theorem counts_partition_the_view
        (csv : list csv_row) (df : frame cell)
        (yr : Z * Z) (mr dr : float * float) (flag : bool) :
  load_and_preprocess_data csv = Ok df ->
  list_sum (map Count (grouped mean (df_filtered df yr mr dr flag)))
  = length (df_filtered df yr mr dr flag)
  /\ (list_sum (map Count (treemap_rows mean (df_filtered df yr mr dr flag)))
      <= length (df_filtered df yr mr dr flag))%nat.
Proof.
  intros Hload. set (view := df_filtered df yr mr dr flag).
  assert (Hreg : forall r, In r view -> exists k, In k (group_keys view) /\ Region r = Some k).
  { intros r Hr. assert (Hdf : In r df) by (apply df_filtered_In in Hr; tauto).
    apply load_rows in Hload.
    destruct (Forall2_In_r _ _ _ r Hload Hdf) as (a & _ & Hab).
    apply with_region_Ok in Hab as (_ & _ & _ & _ & _ & _ & _ & g & _ & Eg).
    exists g. split; [|exact Eg]. apply group_keys_In. now exists r. }
  assert (Hsum : list_sum (map Count (grouped mean view)) = length view).
  { unfold grouped. rewrite map_map.
    rewrite <- (groups_partition (group_keys view) view);
      [|exact (sorted_irrefl_NoDup key_lt _ key_lt_irrefl (group_keys_sorted view))
       |exact Hreg].
    f_equal. apply map_ext. intros k. simpl. apply agg_count_all.
    intros r Hr. apply group_rows_In in Hr as [Hr _].
    exact (df_filtered_notna _ _ _ _ _ _ Hr). }
  split; [exact Hsum|]. rewrite <- Hsum.
  unfold treemap_rows.
  transitivity (list_sum (map Count (df_region_stats mean view))).
  - apply nlargest_sum_le.
  - apply list_sum_filter_le.
Qed.

Lemma ltb_leb (x y : float) : PrimFloat.ltb x y = true -> PrimFloat.leb x y = true.
Proof.
  rewrite ltb_spec, leb_spec. unfold SFltb, SFleb.
  now destruct (SFcompare (Prim2SF x) (Prim2SF y)) as [[| |]|].
Qed.

(** The running maximum over cells none of which is NaN: it is the start
    value or one of the cells, and it is at least each of them. *)
Lemma fold_max_step (xs : list float) (acc : float) :
  is_nan acc = false ->
  (forall x, In x xs -> is_nan x = false) ->
  let m := fold_left Aggregator.max_step xs acc in
  is_nan m = false
  /\ (m = acc \/ In m xs)
  /\ PrimFloat.leb acc m = true
  /\ forall x, In x xs -> PrimFloat.leb x m = true.
Proof.
  revert acc. induction xs as [|x xs IH]; intros acc Hacc Hxs; simpl.
  - repeat split; [exact Hacc | now left | now apply leb_refl | intros x []].
  - assert (Hx : is_nan x = false) by (apply Hxs; now left).
    assert (Hstep : is_nan (Aggregator.max_step acc x) = false
                    /\ (Aggregator.max_step acc x = acc \/ Aggregator.max_step acc x = x)
                    /\ PrimFloat.leb acc (Aggregator.max_step acc x) = true
                    /\ PrimFloat.leb x (Aggregator.max_step acc x) = true).
    { unfold Aggregator.max_step. rewrite Hx, Hacc.
      destruct (PrimFloat.ltb acc x) eqn:E.
      - repeat split; [exact Hx | now right | now apply ltb_leb | now apply leb_refl].
      - repeat split; [exact Hacc | now left | now apply leb_refl | now apply leb_total]. }
    destruct Hstep as (Hn & Hor & Hle1 & Hle2).
    destruct (IH _ Hn (fun y Hy => Hxs y (or_intror Hy))) as (Hm & Hin & Hge & Hall).
    split; [exact Hm|]. split; [|split].
    + destruct Hin as [->|Hin]; [|now right; right].
      destruct Hor as [->| ->]; [now left | now right; left].
    + exact (leb_trans _ _ _ Hle1 Hge).
    + intros y [<-|Hy]; [exact (leb_trans _ _ _ Hle2 Hge) | now apply Hall].
Qed.

Lemma agg_max_spec (xs : list float) :
  xs <> [] -> (forall x, In x xs -> is_nan x = false) ->
  In (agg_max xs) xs /\ forall x, In x xs -> PrimFloat.leb x (agg_max xs) = true.
Proof.
  destruct xs as [|x xs]; [intros []; reflexivity|]. intros _ Hxs.
  assert (Hx : is_nan x = false) by (apply Hxs; now left).
  unfold agg_max. simpl fold_left.
  assert (E : Aggregator.max_step nan x = x)
    by (unfold Aggregator.max_step; now rewrite Hx).
  rewrite E.
  destruct (fold_max_step xs x Hx (fun y Hy => Hxs y (or_intror Hy)))
    as (_ & Hin & Hge & Hall).
  split.
  - destruct Hin as [->|Hin]; [now left | now right].
  - intros y [<-|Hy]; [exact Hge | now apply Hall].
Qed.

(** In the statistics of a view, [Max_Mag] of a region is the magnitude
    of one of the region's rows and no row of the region exceeds it. *)
Theorem max_mag_is_largest_of_region
        (df : frame cell) (yr : Z * Z) (mr dr : float * float) (flag : bool)
        (s : region_stat) :
  In s (grouped mean (df_filtered df yr mr dr flag)) ->
  (exists r, In r (df_filtered df yr mr dr flag)
             /\ Region r = Some (st_Region s) /\ xM r = Max_Mag s)
  /\ (forall r, In r (df_filtered df yr mr dr flag) ->
                Region r = Some (st_Region s) ->
                PrimFloat.leb (xM r) (Max_Mag s) = true).
Proof.
  set (view := df_filtered df yr mr dr flag). intros Hs.
  unfold grouped in Hs. apply in_map_iff in Hs as (k & <- & Hk). simpl.
  set (g := group_rows view k).
  assert (Hne : map (@xM cell) g <> []).
  { apply group_keys_In in Hk as (r & Hr & Er).
    assert (Hg : In r g) by (apply group_rows_In; now split).
    destruct g; [destruct Hg | discriminate]. }
  assert (Hnan : forall x, In x (map (@xM cell) g) -> is_nan x = false).
  { intros x Hx. apply in_map_iff in Hx as (r & <- & Hr).
    apply group_rows_In in Hr as [Hr _].
    exact (df_filtered_notna _ _ _ _ _ _ Hr). }
  destruct (agg_max_spec _ Hne Hnan) as [Hin Hall]. split.
  - apply in_map_iff in Hin as (r & E & Hr).
    apply group_rows_In in Hr as [Hr Er]. now exists r.
  - intros r Hr Er. apply Hall. apply in_map. apply group_rows_In. now split.
Qed.

End AggregatorMore.

Section AggregatorMoreExamples.

(** The one dated row of the sample dataset is the one row counted. *)
Lemma counts_partition_the_view_witness :
  list_sum (map Count
              (grouped Samples.first_or_nan
                 (df_filtered Samples.df (2000, 2024)%Z (3.5, 9)%float (0, 100)%float false)))
  = 1%nat.
Proof.
  assert (H : load_and_preprocess_data (R := Dates.ns_range) Samples.csv = Ok Samples.df) by reflexivity.
  rewrite (proj1 (counts_partition_the_view (S := stable_sort_values)
                    Samples.first_or_nan Samples.csv Samples.df
                    (2000, 2024)%Z (3.5, 9)%float (0, 100)%float false H)).
  reflexivity.
Defined.

(** The largest magnitude of Sivrice in the sample view is that of one of
    its rows. *)
Lemma max_mag_is_largest_of_region_witness :
  exists r,
    In r (df_filtered Samples.ten_and_nine (2000, 2024)%Z (3.5, 9)%float (0, 100)%float false)
    /\ Region r = Some (u "Sivrice") /\ xM r = 5.5%float.
Proof.
  apply (max_mag_is_largest_of_region Samples.first_or_nan Samples.ten_and_nine
           (2000, 2024)%Z (3.5, 9)%float (0, 100)%float false
           (mkStat (u "Sivrice") 10 5.5 5.5 10)).
  right; left; reflexivity.
Defined.

(** With twenty-six regions past the threshold, the twenty-five rows of
    the treemap, all of [Count] 10, are in increasing order of label. *)
Lemma treemap_rows_ordered_witness :
  StronglySorted treemap_before
    (treemap_rows (S := stable_sort_values) Samples.first_or_nan
       (df_filtered Crowd.events (2000, 2024)%Z (3.5, 9)%float (0, 100)%float false)).
Proof.
  apply (treemap_rows_ordered (S := stable_sort_values) Samples.first_or_nan).
  apply Nat.ltb_lt. vm_compute. reflexivity.
Defined.

End AggregatorMoreExamples.

(* ================================================================== *)
(** * The bounds of the year slider                                     *)
(* ================================================================== *)

Section SidebarTheorems.

Import Sidebar.

Ltac fold_years IH :=
  match goal with
  | y : option Z, acc : option Z |- _ =>
      destruct y as [v|], acc as [a|]; simpl;
      match goal with
      | |- context [fold_left _ ?ys ?acc'] =>
          specialize (IH acc'); destruct (fold_left _ ys acc') as [m|]
      end
  end.

Lemma year_min_fold (ys : list (option Z)) (acc : option Z) :
  match fold_left min_step ys acc with
  | None => acc = None /\ forall y, In y ys -> y = None
  | Some m =>
      (acc = Some m \/ In (Some m) ys)
      /\ (forall a, acc = Some a -> (m <= a)%Z)
      /\ forall y, In (Some y) ys -> (m <= y)%Z
  end.
Proof.
  revert acc. induction ys as [|y ys IH]; intros acc; simpl.
  - destruct acc as [a|]; [|now split].
    split; [now left|]. split; [intros ? [= <-]; lia | intros ? []].
  - fold_years IH.
    + destruct IH as ([E|Hin] & Hacc & Hall).
      * injection E as <-. split; [|split].
        -- destruct (Z.min_spec a v) as [[_ ->]|[_ ->]]; [now left | now right; left].
        -- intros ? [= <-]. lia.
        -- intros y [[= <-]|Hy]; [lia | now apply Hall].
      * specialize (Hacc _ eq_refl). split; [now right; right|]. split.
        -- intros ? [= <-]. lia.
        -- intros y [[= <-]|Hy]; [lia | now apply Hall].
    + destruct IH as [E _]. discriminate.
    + destruct IH as ([E|Hin] & Hacc & Hall).
      * injection E as <-. split; [now right; left|]. split; [discriminate|].
        intros y [[= <-]|Hy]; [lia | now apply Hall].
      * specialize (Hacc _ eq_refl). split; [now right; right|].
        split; [discriminate|].
        intros y [[= <-]|Hy]; [lia | now apply Hall].
    + destruct IH as [E _]. discriminate.
    + destruct IH as ([E|Hin] & Hacc & Hall).
      * split; [now left|]. split; [exact Hacc|].
        intros y [Hy|Hy]; [discriminate | now apply Hall].
      * split; [now right; right|]. split; [exact Hacc|].
        intros y [Hy|Hy]; [discriminate | now apply Hall].
    + destruct IH as [E _]. discriminate.
    + destruct IH as ([E|Hin] & Hacc & Hall); [discriminate|].
      split; [now right; right|]. split; [discriminate|].
      intros y [Hy|Hy]; [discriminate | now apply Hall].
    + destruct IH as [_ Hall]. split; [reflexivity|].
      intros y [<-|Hy]; [reflexivity | now apply Hall].
Qed.

Lemma year_max_fold (ys : list (option Z)) (acc : option Z) :
  match fold_left max_step ys acc with
  | None => acc = None /\ forall y, In y ys -> y = None
  | Some m =>
      (acc = Some m \/ In (Some m) ys)
      /\ (forall a, acc = Some a -> (a <= m)%Z)
      /\ forall y, In (Some y) ys -> (y <= m)%Z
  end.
Proof.
  revert acc. induction ys as [|y ys IH]; intros acc; simpl.
  - destruct acc as [a|]; [|now split].
    split; [now left|]. split; [intros ? [= <-]; lia | intros ? []].
  - fold_years IH.
    + destruct IH as ([E|Hin] & Hacc & Hall).
      * injection E as <-. split; [|split].
        -- destruct (Z.max_spec a v) as [[_ ->]|[_ ->]]; [now right; left | now left].
        -- intros ? [= <-]. lia.
        -- intros y [[= <-]|Hy]; [lia | now apply Hall].
      * specialize (Hacc _ eq_refl). split; [now right; right|]. split.
        -- intros ? [= <-]. lia.
        -- intros y [[= <-]|Hy]; [lia | now apply Hall].
    + destruct IH as [E _]. discriminate.
    + destruct IH as ([E|Hin] & Hacc & Hall).
      * injection E as <-. split; [now right; left|]. split; [discriminate|].
        intros y [[= <-]|Hy]; [lia | now apply Hall].
      * specialize (Hacc _ eq_refl). split; [now right; right|].
        split; [discriminate|].
        intros y [[= <-]|Hy]; [lia | now apply Hall].
    + destruct IH as [E _]. discriminate.
    + destruct IH as ([E|Hin] & Hacc & Hall).
      * split; [now left|]. split; [exact Hacc|].
        intros y [Hy|Hy]; [discriminate | now apply Hall].
      * split; [now right; right|]. split; [exact Hacc|].
        intros y [Hy|Hy]; [discriminate | now apply Hall].
    + destruct IH as [E _]. discriminate.
    + destruct IH as ([E|Hin] & Hacc & Hall); [discriminate|].
      split; [now right; right|]. split; [discriminate|].
      intros y [Hy|Hy]; [discriminate | now apply Hall].
    + destruct IH as [_ Hall]. split; [reflexivity|].
      intros y [<-|Hy]; [reflexivity | now apply Hall].
Qed.

Lemma in_years (df : frame cell) (y : option Z) :
  In y (map (@Year cell) df) <-> exists r, In r df /\ Year r = y.
Proof.
  rewrite in_map_iff. split; intros (r & H1 & H2); exists r; tauto.
Qed.

(** Computing the bounds of the year slider fails with [ValueError]
    exactly when no row of the dataset has a year (an empty dataset
    included).  Otherwise the bounds are the years of two rows, every
    dated row lies between them, and the default selection runs from
    2000 to the upper bound. *)
Theorem year_slider_bounds (df : frame cell) :
  (year_slider df = ValueError <-> forall r, In r df -> Year r = None)
  /\ forall lo hi v,
       year_slider df = Started (lo, hi, v) ->
       v = (2000%Z, hi)
       /\ (exists r, In r df /\ Year r = Some lo)
       /\ (exists r, In r df /\ Year r = Some hi)
       /\ forall r y, In r df -> Year r = Some y -> (lo <= y <= hi)%Z.
Proof.
  unfold year_slider, year_min, year_max.
  pose proof (year_min_fold (map (@Year cell) df) None) as Hmin.
  pose proof (year_max_fold (map (@Year cell) df) None) as Hmax.
  destruct (fold_left min_step _ None) as [lo|];
    destruct (fold_left max_step _ None) as [hi|]; simpl.
  - destruct Hmin as ([E|Hlo] & _ & Hmin); [discriminate|].
    destruct Hmax as ([E|Hhi] & _ & Hmax); [discriminate|].
    split.
    + split; [discriminate|]. intros Hnone.
      apply in_years in Hlo as (r & Hr & Er).
      rewrite (Hnone r Hr) in Er. discriminate.
    + intros lo' hi' v [= <- <- <-]. split; [reflexivity|].
      split; [now apply in_years|]. split; [now apply in_years|].
      intros r y Hr Ey.
      assert (Hy : In (Some y) (map (@Year cell) df)) by (apply in_years; now exists r).
      split; [now apply Hmin | now apply Hmax].
  - exfalso. destruct Hmin as ([E|Hlo] & _); [discriminate|].
    destruct Hmax as [_ Hnone]. specialize (Hnone _ Hlo). discriminate.
  - exfalso. destruct Hmax as ([E|Hhi] & _); [discriminate|].
    destruct Hmin as [_ Hnone]. specialize (Hnone _ Hhi). discriminate.
  - destruct Hmin as [_ Hnone]. split.
    + split; [|reflexivity]. intros _ r Hr. apply Hnone. apply in_years. now exists r.
    + intros lo hi v E. discriminate.
Qed.

End SidebarTheorems.

(* ================================================================== *)
(** * Missing locations, good files and the first view                  *)
(* ================================================================== *)

Section PipelineAndDefaults.

(** The range of dates the timestamp column can hold is arbitrary. *)
Context {R : Dates.TimestampRange}.

Import Sidebar.

(** Every cleaned row comes from a row of the file that passes the gates. *)
Lemma cleaned_row_origin (csv : list csv_row) (df : frame cell) (r' : row cell) :
  load_and_preprocess_data csv = Ok df -> In r' df ->
  exists r, In r csv /\ gate r = true /\ cleaned_from r r'.
Proof.
  intros H Hr'. apply load_rows in H. rewrite kept_rows in H.
  destruct (Forall2_In_r _ _ _ r' H Hr') as (a & Ha & Hab).
  apply in_map_iff in Ha as (r & <- & Hr). apply filter_In in Hr as [Hr Hg].
  exists r. split; [exact Hr|]. split; [exact Hg | now apply with_region_cleaned].
Qed.

(** Every row of the file that passes the gates has its cleaned row. *)
Lemma gated_row_cleaned (csv : list csv_row) (df : frame cell) (r : csv_row) :
  load_and_preprocess_data csv = Ok df -> In r csv -> gate r = true ->
  exists r', In r' df /\ cleaned_from r r'.
Proof.
  intros H Hr Hg. apply load_rows in H. rewrite kept_rows in H.
  destruct (Forall2_In_l _ _ _ (normalize r) H) as (r' & Hr' & Hab).
  - apply in_map, filter_In. now split.
  - exists r'. split; [exact Hr' | now apply with_region_cleaned].
Qed.

(** A row of the file without a location, when it passes the gates, is
    kept with the location ["Unknown"] and the region ["Unknown"]; it
    never makes the extraction fail. *)
Theorem missing_location_becomes_unknown
        (csv : list csv_row) (df : frame cell) (r : csv_row) :
  load_and_preprocess_data csv = Ok df ->
  In r csv -> gate r = true -> Yer r = None ->
  exists r', In r' df
             /\ Location r' = Some Unknown /\ Region r' = Some Unknown
             /\ Latitude r' = Enlem r /\ Longitude r' = Boylam r
             /\ Depth r' = Derinlik r /\ xM r' = csv_xM r.
Proof.
  intros H Hr Hg Hy.
  destruct (gated_row_cleaned csv df r H Hr Hg)
    as (r' & Hr' & _ & _ & Elat & Elon & Edep & Emag & Eloc & label & El & Ereg).
  rewrite Hy in Eloc, El. simpl in Eloc, El.
  assert (E : label = Unknown)
    by (change (Ok Unknown = Ok label) in El; now injection El).
  subst label. exists r'. repeat split; assumption.
Qed.

(** A file all of whose kept locations have a label is cleaned without
    failure. *)
Theorem pipeline_succeeds_on_labelled_rows (csv : list csv_row) :
  (forall r, In r csv -> gate r = true ->
             exists label, extract_region (fillna Unknown (Yer r)) = Ok label) ->
  exists df, load_and_preprocess_data csv = Ok df.
Proof.
  intros Hall. unfold load_and_preprocess_data. cbv zeta. rewrite kept_rows.
  destruct (mapM with_region (map normalize (filter gate csv))) as [df|e] eqn:E;
    [now exists df|].
  exfalso.
  destruct (proj1 (mapM_Raise with_region (map normalize (filter gate csv))))
    as (a & e' & Hin & Ea); [now exists e|].
  apply in_map_iff in Hin as (r & <- & Hr). apply filter_In in Hr as [Hr Hg].
  destruct (Hall r Hr Hg) as [label El].
  unfold with_region in Ea. simpl in Ea. rewrite El in Ea. discriminate.
Qed.

(** With the sliders at their default values, the upper bounds on year
    and magnitude and the lower bound on depth exclude no row of the
    cleaned dataset: the first view holds exactly the rows from 2000 on,
    of magnitude 3.5 or more and depth 100 or less. *)
Theorem default_view_rows
        (csv : list csv_row) (df : frame cell) (lo hi : Z) (v : Z * Z) (r : row cell) :
  load_and_preprocess_data csv = Ok df ->
  year_slider df = Started (lo, hi, v) ->
  (In r (df_filtered df v (mag_default df) depth_default false)
   <-> In r df
       /\ (exists y, Year r = Some y /\ (2000 <= y)%Z)
       /\ PrimFloat.leb 3.5 (xM r) = true
       /\ PrimFloat.leb (Depth r) 100 = true).
Proof.
  intros Hload Hs.
  assert (Hv : v = (2000%Z, hi)
               /\ forall y, In (Some y) (map (@Year cell) df) -> (y <= hi)%Z).
  { unfold year_slider, year_min, year_max in Hs.
    pose proof (year_max_fold (map (@Year cell) df) None) as Hmax.
    destruct (fold_left min_step _ None) as [lo'|]; [|discriminate].
    destruct (fold_left max_step _ None) as [hi'|]; [|discriminate].
    simpl in Hs. injection Hs as <- <- <-. split; [reflexivity | tauto]. }
  destruct Hv as [-> Hhi].
  rewrite df_filtered_In. unfold range_mask, mag_default, depth_default, mag_max.
  simpl. rewrite !andb_true_iff. unfold year_ge, year_le. split.
  - intros (Hr & [[[[[Ha Hb] Hc] Hd] He] Hf] & _).
    split; [exact Hr|]. split; [|now split].
    destruct (Year r) as [y|]; [|discriminate].
    exists y. split; [reflexivity | now apply Z.leb_le].
  - intros (Hr & (y & Ey & Hy) & Hmag & Hdep).
    split; [exact Hr|]. split; [|discriminate].
    destruct (cleaned_row_origin csv df r Hload Hr)
      as (c & _ & Hg & _ & _ & _ & _ & Edep & Emag & _).
    unfold gate in Hg. rewrite !andb_true_iff in Hg.
    destruct Hg as [[_ Hd0] Hm0]. rewrite <- Edep in Hd0.
    rewrite Ey. repeat split; try assumption.
    + now apply Z.leb_le.
    + apply Z.leb_le, Hhi. rewrite <- Ey. now apply in_map.
    + apply agg_max_spec.
      * intros E. apply (in_map (@xM cell)) in Hr. rewrite E in Hr. destruct Hr.
      * intros x Hx. apply in_map_iff in Hx as (r0 & <- & Hr0).
        destruct (cleaned_row_origin csv df r0 Hload Hr0)
          as (c0 & _ & Hg0 & _ & _ & _ & _ & _ & Emag0 & _).
        unfold gate in Hg0. rewrite !andb_true_iff in Hg0.
        destruct Hg0 as [_ Hm]. rewrite <- Emag0 in Hm. exact (ltb_notna _ _ Hm).
      * now apply in_map.
Qed.

End PipelineAndDefaults.

Section DefaultsExamples.

(** A gated row without location in a two-row file. *)
Lemma missing_location_becomes_unknown_witness :
  exists r', In r' [Samples.pazarcik_clean;
                    mkRow None None 38 38.5 7 5.5 (Some Unknown) (Some Unknown)]
             /\ Location r' = Some Unknown /\ Region r' = Some Unknown.
Proof.
  destruct (missing_location_becomes_unknown (R := Dates.ns_range)
              [Samples.pazarcik; mkCsv None 38 38.5 7 5.5 None]
              [Samples.pazarcik_clean;
               mkRow None None 38 38.5 7 5.5 (Some Unknown) (Some Unknown)]
              (mkCsv None 38 38.5 7 5.5 None))
    as (r' & Hin & Hl & Hr & _); try reflexivity.
  - right; left; reflexivity.
  - now exists r'.
Defined.

Lemma pipeline_succeeds_on_labelled_rows_witness :
  exists df, load_and_preprocess_data (R := Dates.ns_range) Samples.csv = Ok df.
Proof.
  apply pipeline_succeeds_on_labelled_rows.
  intros r [<-|[<-|[<-|[<-|[]]]]] _; eexists; reflexivity.
Defined.

(** The first view of the sample dataset holds its one dated row. *)
Lemma default_view_rows_witness :
  In Samples.pazarcik_clean
     (df_filtered Samples.df (2000, 2023)%Z
                  (Sidebar.mag_default Samples.df) Sidebar.depth_default false).
Proof.
  assert (H : load_and_preprocess_data (R := Dates.ns_range) Samples.csv = Ok Samples.df)
    by reflexivity.
  apply (proj2 (default_view_rows Samples.csv Samples.df 2023 2023 (2000, 2023)%Z
                  Samples.pazarcik_clean H eq_refl)).
  split; [now left|]. split; [exists 2023%Z; split; [reflexivity | lia]|].
  split; reflexivity.
Defined.

End DefaultsExamples.
